(** * slogctx: context-carried log attributes

    A shallow embedding of package [slogctx] of fpawel/slogx and of the
    in-memory sink of package [slogtest].

    Go slices are modelled with their backing arrays in an explicit heap, so
    that sharing between a parent context and the contexts derived from it is
    visible: a mutator receives the heap and returns the heap it leaves
    behind. *)

From Stdlib Require Import String ZArith Lia.
From stdpp Require Import base gmap list strings.

Open Scope string_scope.
Open Scope list_scope.
Open Scope nat_scope.

(** ** Values *)

(** Go's [any]: the dynamic values that occur as arguments.  A type
    assertion [x.(string)] succeeds exactly on [AnyString]. *)
Inductive any : Type :=
| AnyNil
| AnyString (s : string)
| AnyInt (n : Z)
| AnyBool (b : bool)
| AnyOther (id : nat).

(** [field] represents a key-value pair for logging. *)
Record field : Type := Field { key : string; val : any }.

(** The zero value of [field], the content of a freshly made array cell. *)
Definition zero_field : field := {| key := ""; val := AnyNil |}.

(** ** Heap of backing arrays and slice headers *)

(** A backing array is a list of cells; the heap is the sequence of all
    arrays allocated so far, an array's address being its position. *)
Abbreviation heap := (list (list field)).

(** A slice header [[]field].  Every slice of the package starts at the
    first cell of its array, so no offset is kept.  The nil slice has no
    array. *)
Record goslice : Type := GoSlice { ptr : option nat; len : nat; cap : nat }.

Definition nil_slice : goslice := {| ptr := None; len := 0; cap := 0 |}.

Definition array_at (h : heap) (s : goslice) : list field :=
  match ptr s with
  | Some p => default [] (h !! p)
  | None => []
  end.

(** [s[i]] *)
Definition index (h : heap) (s : goslice) (i : nat) : field :=
  default zero_field (array_at h s !! i).

(** The sequence of elements a reader of [s] sees. *)
Definition elems (h : heap) (s : goslice) : list field :=
  take (len s) (array_at h s).

(** The header points into the heap and stays within its array. *)
Definition slice_ok (h : heap) (s : goslice) : bool :=
  match ptr s with
  | Some p =>
      match h !! p with
      | Some a => bool_decide (len s ≤ cap s ∧ cap s ≤ length a)
      | None => false
      end
  | None => bool_decide (len s = 0 ∧ cap s = 0)
  end.

(** [make([]field, 0, c)] *)
Definition make (h : heap) (c : nat) : heap * goslice :=
  (h ++ [replicate c zero_field],
   {| ptr := Some (length h); len := 0; cap := c |}).

(** ** Contexts *)

(** [fieldsData] stores a slice of key-value pairs for logging. *)
Record fieldsData : Type := FieldsData { slice : goslice }.

(** Keys under which values are bound in a [context.Context]:
    [contextKeyFields], the package's private key; [keyFields], the string
    key ["slog_fields"] of the older handler; any key of another package. *)
Inductive ctxkey : Type :=
| contextKeyFields
| keyFields
| otherKey (id : nat).

#[global] Instance ctxkey_eq_dec : EqDecision ctxkey.
Proof. solve_decision. Defined.

(** Values bound in a context.  Under [contextKeyFields] the package binds
    either [nil] or the address of a [fieldsData] it has just built, never
    a nil [*fieldsData]; as no function writes to a [fieldsData] once it is
    built, the pointer is modelled by the struct it points to.  [VSyncMap]
    is the [*sync.Map] of the older handler, given by the entries [Range]
    enumerates. *)
Inductive ctxval : Type :=
| VNil
| VFieldsData (p : fieldsData)
| VSyncMap (m : list (any * any))
| VAny (a : any).

(** A non-nil [context.Context]: the root, or a [context.WithValue]
    derivation.  Derivations that bind no value (cancellation, deadlines)
    pass [Value] on to their parent and are left out. *)
Inductive Context : Type :=
| Background
| WithValue (parent : Context) (k : ctxkey) (v : ctxval).

(** [ctx.Value(k)]: the innermost binding of [k], [nil] when there is
    none. *)
Fixpoint Value (c : Context) (k : ctxkey) : ctxval :=
  match c with
  | Background => VNil
  | WithValue parent k' v => if decide (k' = k) then v else Value parent k
  end.

(** The type assertion of [v] to [*fieldsData]: [Some p] when it
    succeeds, [None] for the pair [(nil, false)]. *)
Definition as_fieldsData (v : ctxval) : option fieldsData :=
  match v with
  | VFieldsData p => Some p
  | _ => None
  end.

(** The outcome of a call that may end in a run-time panic. *)
Inductive result (A : Type) : Type :=
| Ok (a : A)
| Panic.
Arguments Ok {A} a.
Arguments Panic {A}.

Section Slices.

(** The capacity the runtime picks when [append] has to move a slice of
    capacity [c] that must hold [n] elements.  The Go runtime's choice
    depends on size classes; only that it is at least [n] is used, and
    that is enforced in [append]. *)
Variable growslice : nat → nat → nat.

(** [append(s, xs...)]: written into the spare capacity of the array of
    [s] when it fits, otherwise into a new array. *)
Definition append (h : heap) (s : goslice) (xs : list field) : heap * goslice :=
  let need := len s + length xs in
  if bool_decide (need ≤ cap s) then
    match ptr s with
    | Some p =>
        (alter (λ a, take (len s) a ++ xs ++ drop need a) p h,
         {| ptr := Some p; len := need; cap := cap s |})
    | None => (h, s)
    end
  else
    let c := Nat.max need (growslice (cap s) need) in
    (h ++ [elems h s ++ xs ++ replicate (c - need) zero_field],
     {| ptr := Some (length h); len := need; cap := c |}).

(** [slices.Clone(s)], which the Go 1.22 library defines as
    [append(s[:0:0], s...)]. *)
Definition Clone (h : heap) (s : goslice) : heap * goslice :=
  append h {| ptr := ptr s; len := 0; cap := 0 |} (elems h s).

(** [for _, f := range s { st = body(st, f) }] for a body that may write to
    the heap: the header is read once, each element when its turn comes. *)
Definition range {A : Type} (s : goslice)
    (body : heap * A → field → heap * A) (st : heap * A) : heap * A :=
  foldl (λ st i, body st (index st.1 s i)) st (seq 0 (len s)).

(** [for i := 0; i+1 < n; i += 2 { st = body(i, st) }] *)
Fixpoint for_pairs {A : Type} (fuel i n : nat) (body : nat → A → A) (st : A) : A :=
  match fuel with
  | O => st
  | S fuel' =>
      if bool_decide (i + 1 < n)
      then for_pairs fuel' (i + 2) n body (body i st)
      else st
  end.


(** ** Carrier mutators *)

(** WithValues returns a new context with the provided key-value pairs
    added for logging. *)
Definition WithValues (h : heap) (ctx : option Context) (args : list any)
    : heap * option Context :=
  let c := match ctx with None => Background | Some c => c end in
  let n := length args in
  let n := if bool_decide (n `mod` 2 ≠ 0) then n - 1 else n in
  if bool_decide (n = 0) then (h, Some c) else
  let '(h, newFields) := make h (n / 2) in
  let '(h, newFields) :=
    for_pairs n 0 n (λ i '(h, newFields),
      match args !! i with
      | Some (AnyString k) =>
          if bool_decide (k = "") then (h, newFields)
          else append h newFields
                 [ {| key := k; val := default AnyNil (args !! (i + 1)) |} ]
      | _ => (h, newFields)
      end) (h, newFields) in
  if bool_decide (len newFields = 0) then (h, Some c) else
  match as_fieldsData (Value c contextKeyFields) with
  | Some p =>
      if bool_decide (len (slice p) = 0)
      then (h, Some (WithValue c contextKeyFields
                       (VFieldsData {| slice := newFields |})))
      else
        let '(h, cloned) := Clone h (slice p) in
        let '(h, combined) := append h cloned (elems h newFields) in
        (h, Some (WithValue c contextKeyFields
                    (VFieldsData {| slice := combined |})))
  | None =>
      (h, Some (WithValue c contextKeyFields
                  (VFieldsData {| slice := newFields |})))
  end.

(** WithUniqueValues returns a new context with the provided key-value
    pairs added for logging, replacing any existing values for the same
    keys. *)
Definition WithUniqueValues (h : heap) (ctx : option Context) (args : list any)
    : heap * option Context :=
  let c := match ctx with None => Background | Some c => c end in
  let n := length args in
  let n := if bool_decide (n `mod` 2 ≠ 0) then n - 1 else n in
  if bool_decide (n = 0) then (h, Some c) else
  let '(h, newFields) := make h (n / 2) in
  let replaceSet : gset string := ∅ in
  let '(h, newFields, replaceSet) :=
    for_pairs n 0 n (λ i '(h, newFields, replaceSet),
      match args !! i with
      | Some (AnyString k) =>
          if bool_decide (k = "") then (h, newFields, replaceSet)
          else
            let replaceSet := {[ k ]} ∪ replaceSet in
            (append h newFields
               [ {| key := k; val := default AnyNil (args !! (i + 1)) |} ],
             replaceSet)
      | _ => (h, newFields, replaceSet)
      end) (h, newFields, replaceSet) in
  if bool_decide (len newFields = 0) then (h, Some c) else
  let existing :=
    match as_fieldsData (Value c contextKeyFields) with
    | Some p => if bool_decide (0 < len (slice p)) then slice p else nil_slice
    | None => nil_slice
    end in
  let '(h, result) := make h (len existing + len newFields) in
  let '(h, result) :=
    range existing (λ '(h, result) f,
      if bool_decide (key f ∈ replaceSet) then (h, result)
      else append h result [f]) (h, result) in
  let '(h, combined) := append h result (elems h newFields) in
  (h, Some (WithValue c contextKeyFields
              (VFieldsData {| slice := combined |}))).

(** WithoutAllKeys returns a new context with all logging attributes
    removed.  [context.WithValue] panics on a nil parent. *)
Definition WithoutAllKeys (ctx : option Context) : result (option Context) :=
  match ctx with
  | None => Panic
  | Some c => Ok (Some (WithValue c contextKeyFields VNil))
  end.

(** WithoutKeys returns a new context with the specified keys removed from
    the logging attributes. *)
Definition WithoutKeys (h : heap) (ctx : option Context) (keys : list string)
    : heap * option Context :=
  match ctx with
  | None => (h, ctx)
  | Some c =>
      if bool_decide (length keys = 0) then (h, ctx) else
      match as_fieldsData (Value c contextKeyFields) with
      | None => (h, ctx)
      | Some p =>
          if bool_decide (len (slice p) = 0) then (h, ctx) else
          let keySet : gset string :=
            foldl (λ keySet k, {[ k ]} ∪ keySet) ∅ keys in
          let '(h, result) := make h (len (slice p)) in
          let '(h, result) :=
            range (slice p) (λ '(h, result) f,
              if bool_decide (key f ∈ keySet) then (h, result)
              else append h result [f]) (h, result) in
          if bool_decide (len result = 0)
          then (h, Some (WithValue c contextKeyFields VNil))
          else (h, Some (WithValue c contextKeyFields
                           (VFieldsData {| slice := result |})))
      end
  end.

End Slices.

(** ** Accessors *)

(** The loop of [GetFirstValue]: the value of the first element whose key
    is [k]. *)
Fixpoint GetFirstValue_loop (fs : list field) (k : string) : any * bool :=
  match fs with
  | [] => (AnyNil, false)
  | f :: fs' =>
      if bool_decide (key f = k) then (val f, true)
      else GetFirstValue_loop fs' k
  end.

(** GetFirstValue retrieves the first value associated with the given key
    from the context attributes.  Calling [Value] on a nil context is a nil
    dereference. *)
Definition GetFirstValue (h : heap) (ctx : option Context) (k : string)
    : result (any * bool) :=
  if bool_decide (k = "") then Ok (AnyNil, false) else
  match ctx with
  | None => Panic
  | Some c =>
      match as_fieldsData (Value c contextKeyFields) with
      | None => Ok (AnyNil, false)
      | Some p => Ok (GetFirstValue_loop (elems h (slice p)) k)
      end
  end.

Fixpoint HasKey_loop (fs : list field) (k : string) : bool :=
  match fs with
  | [] => false
  | f :: fs' => if bool_decide (key f = k) then true else HasKey_loop fs' k
  end.

(** HasKey checks if the given key exists in the context attributes. *)
Definition HasKey (h : heap) (ctx : option Context) (k : string) : result bool :=
  if bool_decide (k = "") then Ok false else
  match ctx with
  | None => Panic
  | Some c =>
      match as_fieldsData (Value c contextKeyFields) with
      | None => Ok false
      | Some p => Ok (HasKey_loop (elems h (slice p)) k)
      end
  end.

(** ** Records and sinks *)

(** [slog.Attr]; [slog.Any(k, v)] builds the attribute of key [k] that
    carries [v]. *)
Record Attr : Type := slog_Any { Key : string; Value_ : any }.

(** [slog.Record], reduced to the parts the handlers read, with the
    attribute-accumulation contract the decorator relies on: [AddAttrs]
    appends, and leaves what the record already holds in place. *)
Record Record_ : Type :=
  { Level : Z; Message : string; Attrs : list Attr }.

Definition AddAttrs (r : Record_) (attrs : list Attr) : Record_ :=
  {| Level := Level r; Message := Message r; Attrs := Attrs r ++ attrs |}.

(** Go's [error]: [None] is the nil error. *)
Abbreviation error := (option string).

(** [slog.Handler], the capability set of a sink.  [W] is the state a sink
    works in when it handles a record: what it reads and leaves behind. *)
Class slog_Handler (W H : Type) : Type :=
  { Enabled : H → option Context → Z → bool;
    Handle : H → option Context → Record_ → W → result (W * error);
    WithAttrs : H → list Attr → H;
    WithGroup : H → string → H }.

(** ** The decorator *)

(** [Handler] implements [slog.Handler] and supports attributes from
    [context.Context]; it wraps an existing [slog.Handler]. *)
Record Handler (H : Type) : Type := NewHandler { wrapped : H }.
Arguments NewHandler {H} wrapped.
Arguments wrapped {H} h.

Section Decorator.

Context {W H : Type} `{!slog_Handler W H}.

Definition Handler_Enabled (d : Handler H) (ctx : option Context) (level : Z)
    : bool :=
  Enabled (wrapped d) ctx level.

(** Handle adds attributes from context to the log record. *)
Definition Handler_Handle (d : Handler H) (h : heap) (ctx : option Context)
    (record : Record_) (w : W) : result (W * error) :=
  match ctx with
  | None => Panic
  | Some c =>
      let record :=
        match as_fieldsData (Value c contextKeyFields) with
        | Some p =>
            foldl (λ record f, AddAttrs record [slog_Any (key f) (val f)])
              record (elems h (slice p))
        | None => record
        end in
      Handle (wrapped d) ctx record w
  end.

Definition Handler_WithAttrs (d : Handler H) (attrs : list Attr) : Handler H :=
  NewHandler (WithAttrs (wrapped d) attrs).

Definition Handler_WithGroup (d : Handler H) (name : string) : Handler H :=
  NewHandler (WithGroup (wrapped d) name).

(** Ensure Handler implements slog.Handler.  The heap it reads the carrier
    from is part of the state it works in. *)
#[global] Instance Handler_slog_Handler : slog_Handler (heap * W) (Handler H) :=
  {| Enabled := Handler_Enabled;
     Handle := λ d ctx record '(h, w),
       match Handler_Handle d h ctx record w with
       | Ok (w', err) => Ok ((h, w'), err)
       | Panic => Panic
       end;
     WithAttrs := Handler_WithAttrs;
     WithGroup := Handler_WithGroup |}.

End Decorator.

(** ** The older handler of [slogctx/handler.go] *)

Module Legacy.
Section Legacy.

Context {W H : Type} `{!slog_Handler W H}.

(** [Handle] of the older handler: the entries of the [*sync.Map] bound
    under [keyFields] whose key is a string become attributes. *)
Definition Handler_Handle (d : Handler H) (ctx : option Context)
    (record : Record_) (w : W) : result (W * error) :=
  match ctx with
  | None => Panic
  | Some c =>
      let record :=
        match Value c keyFields with
        | VSyncMap m =>
            foldl (λ record '(k, v),
                     match k with
                     | AnyString keyString =>
                         AddAttrs record [slog_Any keyString v]
                     | _ => record
                     end) record m
        | _ => record
        end in
      Handle (wrapped d) ctx record w
  end.

Definition Handler_WithAttrs (d : Handler H) (attrs : list Attr) : Handler H :=
  NewHandler (WithAttrs (wrapped d) attrs).

(** [return h.Handler.WithGroup(name)]: the wrapped sink's own handler. *)
Definition Handler_WithGroup (d : Handler H) (name : string) : H :=
  WithGroup (wrapped d) name.

End Legacy.
End Legacy.

(** ** The in-memory sink of [slogtest] *)

(** ObservedLog represents a single captured log entry. *)
Record ObservedLog : Type :=
  { ol_Level : Z;
    ol_Message : string;
    ol_Attrs : list Attr;
    ol_Groups : list string }.

(** ObservedHandler records all log entries in memory.  The [observedState]
    its clones share is the state [list ObservedLog] of the class. *)
Record ObservedHandler : Type :=
  { attrs : list Attr; groups : list string }.

Definition NewObservedHandler : ObservedHandler :=
  {| attrs := []; groups := [] |}.

#[global] Instance ObservedHandler_slog_Handler
    : slog_Handler (list ObservedLog) ObservedHandler :=
  {| Enabled := λ _ _ _, true;
     Handle := λ h _ r logs,
       let recordAttrs := Attrs r in
       let combinedAttrs := attrs h ++ recordAttrs in
       Ok (logs ++ [ {| ol_Level := Level r;
                        ol_Message := Message r;
                        ol_Attrs := combinedAttrs;
                        ol_Groups := groups h |} ], None);
     WithAttrs := λ h attrs', {| attrs := attrs h ++ attrs'; groups := groups h |};
     WithGroup := λ h name, {| attrs := attrs h; groups := groups h ++ [name] |} |}.

(** * Vocabulary of the properties *)

(** [agree_below n h h']: the arrays at addresses below [n] are the same in
    both heaps. *)
Definition agree_below (n : nat) (h h' : heap) : Prop :=
  ∀ q, q < n → h' !! q = h !! q.

Definition below (n : nat) (s : goslice) : Prop :=
  ∀ p, ptr s = Some p → p < n.

Definition above (n : nat) (s : goslice) : Prop :=
  ∀ p, ptr s = Some p → n ≤ p.

(** The arguments read as alternating keys and values; a trailing unpaired
    argument is discarded. *)
Fixpoint pairs (args : list any) : list (any * any) :=
  match args with
  | k :: v :: rest => (k, v) :: pairs rest
  | _ => []
  end.

(** A pair is kept when its key position holds a non-empty string. *)
Definition kept (kv : any * any) : option field :=
  match kv.1 with
  | AnyString s => if bool_decide (s = "") then None else Some (Field s kv.2)
  | _ => None
  end.

(** The fields a batch of arguments contributes, in their original order. *)
Definition kept_fields (args : list any) : list field := omap kept (pairs args).

Section LoopBodies.

Variable growslice : nat → nat → nat.

(** One turn of the loops that filter a carrier: [f] is appended to
    [result] unless its key is in [ks]. *)
Definition keep_body (ks : gset string)
    : heap * goslice → field → heap * goslice :=
  λ '(h, result) f,
    if bool_decide (key f ∈ ks) then (h, result)
    else append growslice h result [f].

(** One turn of the loop that collects [newFields]. *)
Definition collect_step (k v : any) (st : heap * goslice) : heap * goslice :=
  match k with
  | AnyString s =>
      if bool_decide (s = "") then st
      else append growslice st.1 st.2 [ {| key := s; val := v |} ]
  | _ => st
  end.

(** The same loop in [WithUniqueValues], which also fills [replaceSet]. *)
Definition collect_unique_step (k v : any)
    (st : heap * goslice * gset string) : heap * goslice * gset string :=
  match k with
  | AnyString s =>
      if bool_decide (s = "") then st
      else (append growslice st.1.1 st.1.2 [ {| key := s; val := v |} ],
            {[ s ]} ∪ st.2)
  | _ => st
  end.

End LoopBodies.

(** The empty root stands in for a nil context. *)
Definition root (ctx : option Context) : Context :=
  match ctx with
  | None => Background
  | Some c => c
  end.

(** The [fieldsData] a reader finds bound in [ctx], if any. *)
Definition bound (ctx : option Context) : option fieldsData :=
  match ctx with
  | Some c => as_fieldsData (Value c contextKeyFields)
  | None => None
  end.

(** The carrier of [ctx]: the field sequence it binds, in insertion order;
    empty when nothing is bound. *)
Definition carrier (h : heap) (ctx : option Context) : list field :=
  match bound ctx with
  | Some p => elems h (slice p)
  | None => []
  end.

(** The slice bound in [ctx] points into the heap. *)
Definition ctx_ok (h : heap) (ctx : option Context) : bool :=
  match bound ctx with
  | Some p => slice_ok h (slice p)
  | None => true
  end.


(** The attribute a field becomes on emission. *)
Definition attr_of (f : field) : Attr := slog_Any (key f) (val f).

(** Calls of the mutators, for statements about chains of derivations. *)
Inductive call : Type :=
| CallWithValues (args : list any)
| CallWithUniqueValues (args : list any)
| CallWithoutKeys (keys : list string)
| CallWithoutAllKeys.

Section Derivations.

Variable growslice : nat → nat → nat.

Definition apply_call (cl : call) (st : heap * option Context)
    : result (heap * option Context) :=
  match cl with
  | CallWithValues args => Ok (WithValues growslice st.1 st.2 args)
  | CallWithUniqueValues args => Ok (WithUniqueValues growslice st.1 st.2 args)
  | CallWithoutKeys keys => Ok (WithoutKeys growslice st.1 st.2 keys)
  | CallWithoutAllKeys =>
      match WithoutAllKeys st.2 with
      | Ok ctx' => Ok (st.1, ctx')
      | Panic => Panic
      end
  end.

(** The contexts derived one from the other by a chain of calls. *)
Fixpoint derive (cs : list call) (st : heap * option Context)
    : result (heap * option Context) :=
  match cs with
  | [] => Ok st
  | cl :: cs' =>
      match apply_call cl st with
      | Ok st' => derive cs' st'
      | Panic => Panic
      end
  end.

End Derivations.

(** The calls that add fields. *)
Definition adds (cl : call) : bool :=
  match cl with
  | CallWithValues _ | CallWithUniqueValues _ => true
  | _ => false
  end.


(** A reader of [ctx] finds in [h'] what it found in [h]: the same carrier,
    the same answers from [GetFirstValue] and [HasKey], the same emission. *)
Definition unchanged {W H : Type} `{!slog_Handler W H}
    (h h' : heap) (ctx : option Context) : Prop :=
  carrier h' ctx = carrier h ctx ∧
  (∀ k, GetFirstValue h' ctx k = GetFirstValue h ctx k ∧
        HasKey h' ctx k = HasKey h ctx k) ∧
  (∀ (d : Handler H) record (w : W),
     Handler_Handle d h' ctx record w = Handler_Handle d h ctx record w).

(** Sample inputs. *)
Definition double_cap : nat → nat → nat := λ c _, 2 * c.

Definition sample_heap : heap :=
  [[ {| key := "req"; val := AnyString "abc" |};
     {| key := "user"; val := AnyString "Jan" |};
     {| key := "req"; val := AnyString "def" |} ]].

Definition sample_ctx : Context :=
  WithValue Background contextKeyFields
    (VFieldsData {| slice := {| ptr := Some 0; len := 3; cap := 3 |} |}).

Definition sample_record : Record_ :=
  {| Level := 0; Message := "Hello"; Attrs := [slog_Any "site" (AnyInt 7)] |}.

Definition legacy_ctx : Context :=
  WithValue Background keyFields (VSyncMap [(AnyString "a", AnyInt 1)]).

Definition bare_record : Record_ :=
  {| Level := 0; Message := "msg"; Attrs := [] |}.

(** ** Scoping calls on a handler *)





(** A mutator returns the context it was given or binds
    [contextKeyFields] on top of it, to nil or to a
    slice. *)
Definition rebinds (c c' : Context) : Prop :=
  c' = c ∨ c' = WithValue c contextKeyFields VNil ∨
  ∃ p, c' = WithValue c contextKeyFields (VFieldsData p).

(** The calls that cannot bring a key in twice: every call but
    [WithValues], with a [WithUniqueValues] batch that names no key
    twice. *)
Definition keeps_unique (cl : call) : Prop :=
  match cl with
  | CallWithValues _ => False
  | CallWithUniqueValues args => NoDup (key <$> kept_fields args)
  | CallWithoutKeys _ | CallWithoutAllKeys => True
  end.


(** ** The logger of the older package *)

(** The [*slog.Logger] that [Log] returns: the default logger or one found
    in the context. *)
Inductive logger_ref : Type :=
| slog_Default
| Stored (id : nat).

Section ContextLogger.

(** [keyLogger], the key ["slog_logger"] of type [ctxLoggerKey]. *)
Variable keyLogger : ctxkey.

(** Which opaque values are of dynamic type [*slog.Logger]. *)
Variable isLogger : nat → bool.

(** [WithLog]: [context.WithValue(ctx, keyLogger, logger)], which panics on
    a nil parent. *)
Definition WithLog (ctx : option Context) (logger : nat)
    : result (option Context) :=
  match ctx with
  | None => Panic
  | Some c => Ok (Some (WithValue c keyLogger (VAny (AnyOther logger))))
  end.

(** [Log]: the value bound under [keyFields] when it is a [*slog.Logger],
    the default logger otherwise. *)
Definition Log (ctx : option Context) : result logger_ref :=
  match ctx with
  | None => Panic
  | Some c =>
      match Value c keyFields with
      | VAny (AnyOther id) =>
          if isLogger id then Ok (Stored id) else Ok slog_Default
      | _ => Ok slog_Default
      end
  end.

End ContextLogger.

(** ** [lastDot] of [slogpretty] *)

(** The byte ['.'], 46. *)
Definition dot : Ascii.ascii :=
  Ascii.Ascii false true true true false true false false.

(** The loop of [lastDot], [i] running from [n - 1] down to [0]. *)
Fixpoint lastDot_loop (s : string) (n : nat) : Z :=
  match n with
  | O => (-1)%Z
  | S i =>
      if bool_decide (String.get i s = Some dot) then Z.of_nat i
      else lastDot_loop s i
  end.

(** lastDot returns the index of the last dot in a string, or -1 if not
    found. *)
Definition lastDot (s : string) : Z := lastDot_loop s (String.length s).

(** * Properties *)

(** ** Slices and the heap *)

Lemma slice_ok_Some h s p :
  ptr s = Some p →
  slice_ok h s ↔ ∃ a, h !! p = Some a ∧ len s ≤ cap s ∧ cap s ≤ length a.
Proof.
  intros Hp. unfold slice_ok. rewrite Hp. split.
  - destruct (h !! p) as [a|]; [|done].
    intros Hd%bool_decide_unpack. by exists a.
  - intros (a & -> & Hd). by apply bool_decide_pack.
Qed.

Lemma slice_ok_None h s :
  ptr s = None → slice_ok h s ↔ len s = 0 ∧ cap s = 0.
Proof.
  intros Hp. unfold slice_ok. rewrite Hp.
  split; [apply bool_decide_unpack | apply bool_decide_pack].
Qed.

Lemma slice_ok_nil h : slice_ok h nil_slice.
Proof. by apply slice_ok_None. Qed.

Lemma elems_nil_ptr h s : ptr s = None → elems h s = [].
Proof. intros Hp. unfold elems, array_at. rewrite Hp. by rewrite take_nil. Qed.

Lemma elems_len_0 h s : len s = 0 → elems h s = [].
Proof. intros Hl. unfold elems. by rewrite Hl. Qed.

Lemma length_elems h s : slice_ok h s → length (elems h s) = len s.
Proof.
  intros Hok. unfold elems. rewrite length_take.
  destruct (ptr s) as [p|] eqn:Hp.
  - destruct (proj1 (slice_ok_Some h s p Hp) Hok) as (a & Ha & ? & ?).
    unfold array_at. rewrite Hp, Ha. simpl. lia.
  - destruct (proj1 (slice_ok_None h s Hp) Hok) as [Hl _]. lia.
Qed.

(** Reading [s[0]], [s[1]], ... in turn yields [elems]. *)
Lemma elems_index h s :
  slice_ok h s → index h s <$> seq 0 (len s) = elems h s.
Proof.
  intros Hok. apply list_eq. intros i.
  rewrite list_lookup_fmap. unfold elems.
  destruct (decide (i < len s)) as [Hi|Hi].
  - rewrite lookup_seq_lt by done. rewrite lookup_take_lt by done. simpl.
    unfold index.
    assert (i < length (array_at h s)) as Hlt.
    { pose proof (length_elems h s Hok) as Hl. unfold elems in Hl.
      rewrite length_take in Hl. lia. }
    apply lookup_lt_is_Some in Hlt as [x Hx]. by rewrite Hx.
  - rewrite lookup_seq_ge by lia. by rewrite lookup_take_ge by lia.
Qed.

Lemma agree_below_refl n h : agree_below n h h.
Proof. by intros q _. Qed.

Lemma agree_below_trans n h1 h2 h3 :
  agree_below n h1 h2 → agree_below n h2 h3 → agree_below n h1 h3.
Proof. intros H12 H23 q Hq. by rewrite H23, H12. Qed.

Lemma agree_below_le n m h h' : n ≤ m → agree_below m h h' → agree_below n h h'.
Proof. intros Hnm Ha q Hq. apply Ha. lia. Qed.

Lemma agree_below_array n h h' s :
  agree_below n h h' → below n s → array_at h' s = array_at h s.
Proof.
  intros Ha Hb. unfold array_at. destruct (ptr s) as [p|] eqn:Hp; [|done].
  by rewrite (Ha p (Hb p Hp)).
Qed.

Lemma agree_below_elems n h h' s :
  agree_below n h h' → below n s → elems h' s = elems h s.
Proof. intros Ha Hb. unfold elems. by rewrite (agree_below_array n h h' s). Qed.

Lemma agree_below_index n h h' s i :
  agree_below n h h' → below n s → index h' s i = index h s i.
Proof. intros Ha Hb. unfold index. by rewrite (agree_below_array n h h' s). Qed.

Lemma agree_below_ok n h h' s :
  agree_below n h h' → below n s → slice_ok h s → slice_ok h' s.
Proof.
  intros Ha Hb. unfold slice_ok. destruct (ptr s) as [p|] eqn:Hp; [|done].
  by rewrite (Ha p (Hb p Hp)).
Qed.

Lemma slice_ok_below h s : slice_ok h s → below (length h) s.
Proof.
  intros Hok p Hp. destruct (proj1 (slice_ok_Some h s p Hp) Hok) as (a & Ha & _).
  by eapply lookup_lt_Some.
Qed.

Lemma make_spec h c :
  slice_ok (make h c).1 (make h c).2 ∧ elems (make h c).1 (make h c).2 = [] ∧
  len (make h c).2 = 0 ∧ ptr (make h c).2 = Some (length h) ∧
  length (make h c).1 = S (length h) ∧ agree_below (length h) h (make h c).1.
Proof.
  unfold make. simpl. repeat split.
  - unfold slice_ok. simpl. rewrite list_lookup_middle by done.
    apply bool_decide_pack. rewrite length_replicate. lia.
  - rewrite length_app. simpl. lia.
  - intros q Hq. by apply lookup_app_l.
Qed.

Section SliceFacts.

Variable growslice : nat → nat → nat.

Lemma append_length h s xs : length h ≤ length (append growslice h s xs).1.
Proof.
  unfold append. case_bool_decide.
  - destruct (ptr s); simpl; [by rewrite length_alter | done].
  - simpl. rewrite length_app. lia.
Qed.

Lemma append_spec h s xs :
  slice_ok h s →
  slice_ok (append growslice h s xs).1 (append growslice h s xs).2 ∧
  elems (append growslice h s xs).1 (append growslice h s xs).2
    = elems h s ++ xs ∧
  len (append growslice h s xs).2 = len s + length xs.
Proof.
  intros Hok. pose proof (length_elems h s Hok) as Hlen.
  unfold append. case_bool_decide as Hfit.
  - destruct (ptr s) as [p|] eqn:Hp; simpl.
    + destruct (proj1 (slice_ok_Some h s p Hp) Hok) as (a & Ha & Hlc & Hca).
      assert (length (take (len s) a) = len s) as Htl
        by (rewrite length_take; lia).
      unfold slice_ok, elems, array_at. simpl.
      rewrite list_lookup_alter_eq, Ha. simpl. repeat split.
      * apply bool_decide_pack. split; [done|].
        rewrite !length_app, length_drop, Htl. lia.
      * rewrite (app_assoc _ xs), take_app_length'
          by (rewrite length_app, Htl; lia).
        unfold elems, array_at. by rewrite Hp, Ha.
    + destruct (proj1 (slice_ok_None h s Hp) Hok) as [Hl Hc].
      assert (xs = []) as -> by (apply length_zero_iff_nil; lia).
      rewrite app_nil_r. simpl. repeat split; [done | lia].
  - simpl. remember (elems h s) as es eqn:Hes.
    unfold slice_ok, elems, array_at. simpl.
    rewrite list_lookup_middle by done. simpl. repeat split.
    + apply bool_decide_pack. rewrite !length_app, length_replicate, Hlen. lia.
    + rewrite (app_assoc _ xs), take_app_length'
        by (rewrite length_app, Hlen; lia). done.
Qed.

Lemma append_frame h s xs q :
  ptr s ≠ Some q → q < length h →
  (append growslice h s xs).1 !! q = h !! q.
Proof.
  intros Hne Hq. unfold append. case_bool_decide.
  - destruct (ptr s) as [p|]; simpl; [|done].
    apply list_lookup_alter_ne. congruence.
  - simpl. by apply lookup_app_l.
Qed.

Lemma append_ptr h s xs :
  ptr (append growslice h s xs).2 = ptr s ∨
  ptr (append growslice h s xs).2 = Some (length h).
Proof.
  unfold append. case_bool_decide; [|by right].
  destruct (ptr s) eqn:Hp; simpl; by left.
Qed.

(** Appending to a slice whose array lies at or above [n] leaves the
    arrays below [n] alone. *)
Lemma append_above n h s xs :
  n ≤ length h → above n s →
  agree_below n h (append growslice h s xs).1 ∧
  above n (append growslice h s xs).2.
Proof.
  intros Hn Hab. split.
  - intros q Hq. apply append_frame; [|lia].
    intros Hp. apply Hab in Hp. lia.
  - intros p Hp. destruct (append_ptr h s xs) as [He|He];
      rewrite He in Hp; [by apply Hab | injection Hp as <-; lia].
Qed.

Lemma append_step n h s xs h1 s1 :
  append growslice h s xs = (h1, s1) →
  n ≤ length h → slice_ok h s → above n s →
  agree_below n h h1 ∧ length h ≤ length h1 ∧ slice_ok h1 s1 ∧
  above n s1 ∧ elems h1 s1 = elems h s ++ xs ∧
  len s1 = len s + length xs.
Proof.
  intros Happ Hn Hok Hab.
  destruct (append_spec h s xs Hok) as (Hok1 & Hel1 & Hl1).
  destruct (append_above n h s xs Hn Hab) as [Hag1 Hab1].
  pose proof (append_length h s xs) as Hlen1.
  rewrite Happ in *. done.
Qed.

Lemma Clone_spec h s :
  slice_ok h s →
  slice_ok (Clone growslice h s).1 (Clone growslice h s).2 ∧
  elems (Clone growslice h s).1 (Clone growslice h s).2 = elems h s ∧
  agree_below (length h) h (Clone growslice h s).1 ∧
  length h ≤ length (Clone growslice h s).1 ∧
  (0 < len s → above (length h) (Clone growslice h s).2).
Proof.
  intros Hok. pose proof (length_elems h s Hok) as Hlen. unfold Clone.
  set (s0 := {| ptr := ptr s; len := 0; cap := 0 |}).
  assert (slice_ok h s0) as Hok0.
  { unfold slice_ok in *. simpl. destruct (ptr s) as [p|]; [|done].
    destruct (h !! p); [|done]. simpl. case_bool_decide; [done | lia]. }
  destruct (append_spec h s0 (elems h s) Hok0) as (Hok' & Hel & _).
  split; [done|]. split; [by rewrite Hel|]. split; [|split].
  - intros q Hq. unfold append. simpl. case_bool_decide as Hfit.
    + assert (elems h s = []) as -> by (apply length_zero_iff_nil; lia).
      destruct (ptr s); simpl; [|done].
      rewrite list_lookup_alter. case_decide; [subst|done].
      destruct (h !! q) as [a|]; [|done]. simpl. by rewrite drop_0.
    + simpl. by apply lookup_app_l.
  - apply append_length.
  - intros Hpos p. unfold append. simpl.
    case_bool_decide as Hfit; [lia|]. simpl. intros [= <-]. lia.
Qed.

End SliceFacts.

(** ** The loops *)

Lemma pairs_short (l : list any) : length l ≤ 1 → pairs l = [].
Proof. destruct l as [|? [|? ?]]; simpl; [done | done | lia]. Qed.

(** The counted loop over argument positions visits the pairs in order. *)
Lemma for_pairs_pairs {A : Type} (args : list any)
    (step : any → any → A → A) (body : nat → A → A) (st : A) :
  (∀ i k v st, args !! i = Some k → args !! (i + 1) = Some v →
               body i st = step k v st) →
  let n := length args in
  let n := if bool_decide (n `mod` 2 ≠ 0) then n - 1 else n in
  for_pairs n 0 n body st = foldl (λ st kv, step kv.1 kv.2 st) st (pairs args).
Proof.
  intros Hbody n0 n.
  assert (∃ m, n = 2 * m ∧ length args - 1 ≤ n ∧ n ≤ length args)
    as (m & Hm & Hlo & Hhi).
  { pose proof (Nat.div_mod_eq (length args) 2) as Hdm.
    pose proof (Nat.mod_upper_bound (length args) 2) as Hub.
    exists (length args / 2). subst n n0. case_bool_decide; lia. }
  assert (∀ fuel j st, n ≤ 2 * j + 2 * fuel →
            for_pairs fuel (2 * j) n body st
            = foldl (λ st kv, step kv.1 kv.2 st) st (pairs (drop (2 * j) args)))
    as Haux.
  { induction fuel as [|fuel IH]; intros j st' Hfuel; cbn [for_pairs].
    - rewrite pairs_short; [done|]. rewrite length_drop. lia.
    - case_bool_decide as Hlt.
      + destruct (lookup_lt_is_Some_2 args (2 * j)) as [k Hk]; [lia|].
        destruct (lookup_lt_is_Some_2 args (2 * j + 1)) as [v Hv]; [lia|].
        rewrite (drop_S _ k _ Hk).
        replace (S (2 * j)) with (2 * j + 1) by lia.
        rewrite (drop_S _ v _ Hv). cbn [pairs foldl fst snd].
        rewrite <- (Hbody _ _ _ _ Hk Hv).
        replace (2 * j + 2) with (2 * (j + 1)) by lia.
        replace (S (2 * j + 1)) with (2 * (j + 1)) by lia.
        apply IH. lia.
      + rewrite pairs_short; [done|]. rewrite length_drop. lia. }
  specialize (Haux n 0 st). simpl in Haux. apply Haux. lia.
Qed.

Section Loops.

Variable growslice : nat → nat → nat.

Lemma range_keep_aux n src ks h0 (idx : list nat) :
  below n src →
  ∀ h dst,
    agree_below n h0 h → n ≤ length h → slice_ok h dst → above n dst →
    let r := foldl (λ st i, keep_body growslice ks st (index st.1 src i)) (h, dst) idx in
    agree_below n h0 r.1 ∧ length h ≤ length r.1 ∧
    slice_ok r.1 r.2 ∧ above n r.2 ∧
    elems r.1 r.2
      = elems h dst ++ filter (λ f, key f ∉ ks) (index h0 src <$> idx).
Proof.
  intros Hsrc. induction idx as [|i idx IH]; intros h dst Hag Hn Hok Hab; simpl.
  - rewrite app_nil_r. done.
  - rewrite (agree_below_index n h0 h src i Hag Hsrc).
    set (f := index h0 src i). unfold keep_body at 2.
    case_bool_decide as Hin.
    + rewrite filter_cons_False by (intros Hf; by apply Hf).
      by apply IH.
    + rewrite filter_cons_True by done.
      destruct (append growslice h dst [f]) as [h1 d1] eqn:Happ.
      destruct (append_step growslice n h dst [f] h1 d1 Happ Hn Hok Hab)
        as (Hag1 & Hlen1 & Hok1 & Hab1 & Hel1 & _).
      destruct (IH h1 d1) as (? & Hle & ? & ? & Hel);
        [by eapply agree_below_trans | lia | done | done |].
      repeat split; [done | by etrans | done | done |].
      rewrite Hel, Hel1, <- app_assoc. done.
Qed.

Lemma range_keep_spec n src ks h dst :
  n ≤ length h → slice_ok h src → below n src →
  slice_ok h dst → above n dst →
  let r := range src (keep_body growslice ks) (h, dst) in
  agree_below n h r.1 ∧ length h ≤ length r.1 ∧
  slice_ok r.1 r.2 ∧ above n r.2 ∧
  elems r.1 r.2 = elems h dst ++ filter (λ f, key f ∉ ks) (elems h src).
Proof.
  intros Hn Hsrc Hb Hok Hab. unfold range.
  rewrite <- (elems_index h src Hsrc).
  by apply range_keep_aux; [|apply agree_below_refl| | |].
Qed.

Lemma collect_spec n (kvs : list (any * any)) :
  ∀ h nf,
    n ≤ length h → slice_ok h nf → above n nf →
    let r := foldl (λ st kv, collect_step growslice kv.1 kv.2 st) (h, nf) kvs in
    agree_below n h r.1 ∧ length h ≤ length r.1 ∧
    slice_ok r.1 r.2 ∧ above n r.2 ∧
    elems r.1 r.2 = elems h nf ++ omap kept kvs.
Proof.
  induction kvs as [|[k v] kvs IH]; intros h nf Hn Hok Hab; simpl.
  - rewrite app_nil_r. by split; [apply agree_below_refl|].
  - destruct (kept (k, v)) as [f|] eqn:Hk.
    + assert (collect_step growslice k v (h, nf) = append growslice h nf [f]) as ->.
      { unfold kept in Hk. unfold collect_step. simpl in *.
        destruct k; try done. case_bool_decide; [done|]. by injection Hk as <-. }
      destruct (append growslice h nf [f]) as [h1 d1] eqn:Happ.
      destruct (append_step growslice n h nf [f] h1 d1 Happ Hn Hok Hab)
        as (Hag1 & Hlen1 & Hok1 & Hab1 & Hel1 & _).
      destruct (IH h1 d1) as (? & Hle & ? & ? & Hel); [lia | done | done |].
      repeat split; [by eapply agree_below_trans | by etrans | done | done |].
      rewrite Hel, Hel1, <- app_assoc. done.
    + assert (collect_step growslice k v (h, nf) = (h, nf)) as ->.
      { unfold kept in Hk. unfold collect_step. simpl in *.
        destruct k; try done. by case_bool_decide. }
      by apply IH.
Qed.

Lemma collect_unique_spec (kvs : list (any * any)) :
  ∀ st,
    let r := foldl (λ st kv, collect_unique_step growslice kv.1 kv.2 st) st kvs in
    r.1 = foldl (λ st kv, collect_step growslice kv.1 kv.2 st) st.1 kvs ∧
    r.2 = list_to_set (key <$> omap kept kvs) ∪ st.2.
Proof.
  induction kvs as [|[k v] kvs IH]; intros st; simpl.
  - split; [done|]. by rewrite (left_id_L ∅ (∪)).
  - destruct (kept (k, v)) as [f|] eqn:Hk.
    + assert (collect_unique_step growslice k v st
              = (collect_step growslice k v st.1, {[ key f ]} ∪ st.2)) as ->.
      { unfold kept in Hk. unfold collect_unique_step, collect_step.
        simpl in *. destruct k; try done.
        case_bool_decide; [done|]. by injection Hk as <-. }
      destruct (IH (collect_step growslice k v st.1, {[ key f ]} ∪ st.2)) as [H1 H2].
      split; [done|]. rewrite H2. simpl.
      rewrite (assoc_L (∪)). f_equal. apply (comm_L (∪)).
    + assert (collect_unique_step growslice k v st = st ∧ collect_step growslice k v st.1 = st.1)
        as [-> ->].
      { unfold kept in Hk. unfold collect_unique_step, collect_step.
        simpl in *. destruct k; try done. by case_bool_decide. }
      apply IH.
Qed.

End Loops.

(** ** What a context carries *)

Lemma bound_root ctx : bound (Some (root ctx)) = bound ctx.
Proof. by destruct ctx. Qed.

Lemma carrier_root h ctx : carrier h (Some (root ctx)) = carrier h ctx.
Proof. unfold carrier. by rewrite bound_root. Qed.

Lemma ctx_ok_root h ctx : ctx_ok h (Some (root ctx)) = ctx_ok h ctx.
Proof. unfold ctx_ok. by rewrite bound_root. Qed.

Lemma bound_WithValue c v :
  bound (Some (WithValue c contextKeyFields v)) = as_fieldsData v.
Proof. reflexivity. Qed.

(** A heap that agrees with [h] on the arrays of [h] shows the same carrier
    for every context that was well formed in [h]. *)
Lemma carrier_agree h h' ctx :
  agree_below (length h) h h' → ctx_ok h ctx →
  ctx_ok h' ctx ∧ carrier h' ctx = carrier h ctx.
Proof.
  unfold ctx_ok, carrier. intros Hag Hok.
  destruct (bound ctx) as [p|]; [|done].
  pose proof (slice_ok_below h (slice p) Hok) as Hb. split.
  - by eapply agree_below_ok.
  - by eapply agree_below_elems.
Qed.

Lemma kept_fields_short args : length args ≤ 1 → kept_fields args = [].
Proof. intros Hl. unfold kept_fields. by rewrite pairs_short. Qed.

Lemma filter_all {A : Type} (P : A → Prop) `{!∀ x, Decision (P x)} (l : list A) :
  (∀ x, P x) → filter P l = l.
Proof.
  intros HP. induction l as [|x l IH]; [done|].
  by rewrite filter_cons_True, IH.
Qed.

(** The key set [WithoutKeys] builds holds exactly the given keys. *)
Lemma keySet_spec (keys : list string) (s0 : gset string) :
  foldl (λ keySet k, {[ k ]} ∪ keySet) s0 keys = list_to_set keys ∪ s0.
Proof.
  revert s0. induction keys as [|k keys IH]; intros s0; simpl.
  - by rewrite (left_id_L ∅ (∪)).
  - rewrite IH, (assoc_L (∪)). f_equal. apply (comm_L (∪)).
Qed.

(** The body of a collecting loop does at position [i] what its step does
    on the pair found there. *)
Ltac body_agrees :=
  let k := fresh "k" in
  let st := fresh "st" in
  let Hk := fresh "Hk" in
  let Hv := fresh "Hv" in
  intros ? k ? st Hk Hv;
  repeat match goal with x : (_ * _)%type |- _ => destruct x end;
  rewrite Hk, Hv; simpl; by destruct k.

Section Mutators.

Variable growslice : nat → nat → nat.

(** The state after the loop that fills [newFields]. *)
Lemma newFields_spec h c args h1 newFields :
  foldl (λ st kv, collect_step growslice kv.1 kv.2 st)
    (h ++ [replicate c zero_field],
     {| ptr := Some (length h); len := 0; cap := c |}) (pairs args)
  = (h1, newFields) →
  agree_below (length h) h h1 ∧ length h ≤ length h1 ∧
  slice_ok h1 newFields ∧ above (length h) newFields ∧
  elems h1 newFields = kept_fields args.
Proof.
  intros Hloop.
  destruct (make_spec h c) as (Hok0 & Hel0 & _ & Hp0 & Hlen0 & Hag0).
  unfold make in *. simpl in *.
  assert (length h ≤ length (h ++ [replicate c zero_field])) as Hle0
    by (rewrite length_app; lia).
  assert (above (length h) {| ptr := Some (length h); len := 0; cap := c |})
    as Hab0 by (by intros p [= <-]).
  pose proof (collect_spec growslice (length h) (pairs args) _ _
                Hle0 Hok0 Hab0) as Hc.
  rewrite Hloop in Hc. simpl in Hc.
  destruct Hc as (Hag & Hle & Hok & Hab & Hel).
  repeat split; [by eapply agree_below_trans | lia | done | done |].
  exact Hel.
Qed.

Lemma WithValues_spec h ctx args h' ctx' :
  WithValues growslice h ctx args = (h', ctx') →
  ctx_ok h ctx →
  agree_below (length h) h h' ∧ length h ≤ length h' ∧ ctx_ok h' ctx' ∧
  carrier h' ctx' = carrier h ctx ++ kept_fields args ∧
  (kept_fields args = [] → ctx' = Some (root ctx)) ∧
  (kept_fields args ≠ [] → ∃ p, ctx' = Some (WithValue (root ctx) contextKeyFields (VFieldsData p))).
Proof.
  intros Hrun Hok. unfold WithValues in Hrun. fold (root ctx) in Hrun.
  rewrite <- ctx_ok_root in Hok. rewrite <- (carrier_root h ctx).
  set (c := root ctx) in *.
  set (n := if bool_decide (length args `mod` 2 ≠ 0)
            then length args - 1 else length args) in *.
  case_bool_decide as Hn0.
  { injection Hrun as <- <-.
    rewrite kept_fields_short, app_nil_r.
    - by repeat split.
    - subst n. pose proof (Nat.div_mod_eq (length args) 2).
      pose proof (Nat.mod_upper_bound (length args) 2).
      case_bool_decide; lia. }
  cbn [make] in Hrun.
  rewrite (for_pairs_pairs args (collect_step growslice)) in Hrun.
  2:{ body_agrees. }
  destruct (foldl _ _ _) as [h1 newFields] eqn:Hloop.
  apply newFields_spec in Hloop as (Hag1 & Hle1 & Hok1 & Hab1 & Hel1).
  pose proof (length_elems h1 newFields Hok1) as Hlen1.
  destruct (carrier_agree h h1 (Some c) Hag1 Hok) as [Hokc1 Hcar1].
  case_bool_decide as Hempty.
  { injection Hrun as <- <-.
    assert (kept_fields args = []) as ->
      by (apply length_zero_iff_nil; rewrite <- Hel1; lia).
    rewrite app_nil_r. by repeat split. }
  assert (kept_fields args ≠ []) as Hne
    by (intros Hnil; rewrite <- Hel1 in Hnil; rewrite Hnil in Hlen1;
        simpl in Hlen1; lia).
  assert (∀ h2 s2,
    agree_below (length h) h h2 → length h ≤ length h2 → slice_ok h2 s2 →
    elems h2 s2 = carrier h (Some c) ++ kept_fields args →
    (h2, Some (WithValue c contextKeyFields (VFieldsData {| slice := s2 |})))
      = (h', ctx') →
    agree_below (length h) h h' ∧ length h ≤ length h' ∧ ctx_ok h' ctx' ∧
    carrier h' ctx' = carrier h (Some c) ++ kept_fields args ∧
    (kept_fields args = [] → ctx' = Some c) ∧
    (kept_fields args ≠ [] →
     ∃ p, ctx' = Some (WithValue c contextKeyFields (VFieldsData p))))
    as Hfin.
  { intros h2 s2 Hag2 Hle2 Hok2 Hel2 [= <- <-].
    repeat split; [done | done | done | done | done | by eexists]. }
  unfold carrier, ctx_ok in *. simpl in *.
  destruct (as_fieldsData (Value c contextKeyFields)) as [p|].
  - case_bool_decide as Hp0.
    + apply (Hfin h1 newFields); try done.
      by rewrite (elems_len_0 h (slice p)).
    + destruct (Clone growslice h1 (slice p)) as [h2 cloned] eqn:Hclone.
      destruct (Clone_spec growslice h1 (slice p) Hokc1)
        as (Hok2 & Hel2 & Hag2 & Hle2 & Hab2).
      rewrite Hclone in *. simpl in *.
      destruct (append growslice h2 cloned (elems h2 newFields))
        as [h3 combined] eqn:Happ.
      destruct (append_step growslice (length h1) h2 cloned _ h3 combined
                  Happ Hle2 Hok2 ltac:(apply Hab2; lia))
        as (Hag3 & Hle3 & Hok3 & _ & Hel3 & _).
      apply (Hfin h3 combined); try done.
      * eapply agree_below_trans; [done|].
        eapply agree_below_trans; eapply agree_below_le; try done.
      * lia.
      * rewrite Hel3, Hel2, Hcar1, <- Hel1. f_equal.
        eapply agree_below_elems; [done|]. by apply slice_ok_below.
  - by apply (Hfin h1 newFields).
Qed.

Lemma WithUniqueValues_spec h ctx args h' ctx' :
  WithUniqueValues growslice h ctx args = (h', ctx') →
  ctx_ok h ctx →
  agree_below (length h) h h' ∧ length h ≤ length h' ∧ ctx_ok h' ctx' ∧
  carrier h' ctx'
    = filter (λ f, key f ∉ key <$> kept_fields args) (carrier h ctx)
      ++ kept_fields args ∧
  (kept_fields args = [] → ctx' = Some (root ctx)) ∧
  (kept_fields args ≠ [] →
   ∃ p, ctx' = Some (WithValue (root ctx) contextKeyFields (VFieldsData p))).
Proof.
  intros Hrun Hok. unfold WithUniqueValues in Hrun. fold (root ctx) in Hrun.
  rewrite <- ctx_ok_root in Hok. rewrite <- (carrier_root h ctx).
  set (c := root ctx) in *.
  set (n := if bool_decide (length args `mod` 2 ≠ 0)
            then length args - 1 else length args) in *.
  assert (kept_fields args = [] →
          filter (λ f, key f ∉ key <$> kept_fields args) (carrier h (Some c))
            ++ kept_fields args = carrier h (Some c)) as Hnoop.
  { intros ->. rewrite app_nil_r. apply filter_all. intros f. simpl.
    apply not_elem_of_nil. }
  case_bool_decide as Hn0.
  { injection Hrun as <- <-.
    assert (kept_fields args = []) as Hk.
    { apply kept_fields_short. subst n.
      pose proof (Nat.div_mod_eq (length args) 2).
      pose proof (Nat.mod_upper_bound (length args) 2).
      case_bool_decide; lia. }
    rewrite (Hnoop Hk). by repeat split. }
  cbn [make] in Hrun.
  rewrite (for_pairs_pairs args (collect_unique_step growslice)) in Hrun.
  2:{ body_agrees. }
  destruct (collect_unique_spec growslice (pairs args)
              (h ++ [replicate (n `div` 2) zero_field],
               {| ptr := Some (length h); len := 0; cap := n `div` 2 |}, ∅))
    as [Hfst Hsnd].
  destruct (foldl _ _ _) as [[h1 newFields] replaceSet] eqn:Hloop.
  simpl in Hfst, Hsnd. symmetry in Hfst.
  apply newFields_spec in Hfst as (Hag1 & Hle1 & Hok1 & Hab1 & Hel1).
  rewrite (right_id_L ∅ (∪)) in Hsnd. fold (kept_fields args) in Hsnd.
  pose proof (length_elems h1 newFields Hok1) as Hlen1.
  destruct (carrier_agree h h1 (Some c) Hag1 Hok) as [Hokc1 Hcar1].
  case_bool_decide as Hempty.
  { injection Hrun as <- <-.
    assert (kept_fields args = []) as Hk
      by (apply length_zero_iff_nil; rewrite <- Hel1; lia).
    rewrite (Hnoop Hk). by repeat split. }
  assert (kept_fields args ≠ []) as Hne
    by (intros Hnil; rewrite <- Hel1 in Hnil; rewrite Hnil in Hlen1;
        simpl in Hlen1; lia).
  clear Hnoop.
  set (existing := match as_fieldsData (Value c contextKeyFields) with
                   | Some p => if bool_decide (0 < len (slice p))
                               then slice p else nil_slice
                   | None => nil_slice
                   end) in *.
  assert (slice_ok h existing ∧ elems h existing = carrier h (Some c))
    as [Hoke Hele].
  { unfold carrier, ctx_ok in *. simpl in *. subst existing.
    destruct (as_fieldsData (Value c contextKeyFields)) as [p|];
      [|by split; [apply slice_ok_nil|]].
    case_bool_decide; [done|]. split; [apply slice_ok_nil|].
    rewrite (elems_len_0 h (slice p)) by lia. done. }
  pose proof (slice_ok_below h existing Hoke) as Hbe.
  pose proof (make_spec h1 (len existing + len newFields)) as Hmk.
  unfold make in Hmk. cbn [fst snd] in Hmk.
  set (h1' := h1 ++ [replicate (len existing + len newFields) zero_field])
    in *.
  set (result0 := {| ptr := Some (length h1); len := 0;
                     cap := len existing + len newFields |}) in *.
  destruct Hmk as (Hok0 & Hel0 & _ & Hp0 & Hlen0 & Hag0).
  pose proof (range_keep_spec growslice (length h1) existing replaceSet
                h1' result0) as Hr.
  unfold keep_body in Hr.
  destruct (range existing _ _) as [h2 result] eqn:Hrange.
  simpl in Hr.
  destruct Hr as (Hag2 & Hle2 & Hok2 & Hab2 & Hel2).
  { lia. }
  { eapply agree_below_ok; [exact Hag0| |].
    - intros p Hp. apply Hbe in Hp. lia.
    - by eapply agree_below_ok. }
  { intros p Hp. apply Hbe in Hp. lia. }
  { done. }
  { intros p Hp. rewrite Hp0 in Hp. injection Hp as <-. done. }
  destruct (append growslice h2 result (elems h2 newFields))
    as [h3 combined] eqn:Happ.
  destruct (append_step growslice (length h1) h2 result _ h3 combined
              Happ ltac:(lia) Hok2 Hab2)
    as (Hag3 & Hle3 & Hok3 & _ & Hel3 & _).
  injection Hrun as <- <-.
  assert (agree_below (length h1) h1 h3) as Hag13.
  { eapply agree_below_trans; [exact Hag0|].
    eapply agree_below_trans; [exact Hag2 | exact Hag3]. }
  repeat split.
  - eapply agree_below_trans; [exact Hag1|].
    by eapply agree_below_le.
  - lia.
  - done.
  - unfold carrier. simpl. rewrite Hel3, Hel2. rewrite ?Hel0. simpl.
    assert (elems h1' existing = carrier h (Some c)) as ->.
    { rewrite <- Hele. eapply agree_below_elems; [|exact Hbe].
      eapply agree_below_trans; [exact Hag1|].
      by eapply agree_below_le. }
    assert (elems h2 newFields = kept_fields args) as ->.
    { rewrite <- Hel1. eapply agree_below_elems;
        [|by apply slice_ok_below].
      eapply agree_below_trans; [exact Hag0 | exact Hag2]. }
    f_equal. apply list_filter_iff. intros f. rewrite Hsnd.
    by rewrite elem_of_list_to_set.
  - done.
  - intros _. by eexists.
Qed.

Lemma WithoutKeys_spec h ctx keys h' ctx' :
  WithoutKeys growslice h ctx keys = (h', ctx') →
  ctx_ok h ctx →
  agree_below (length h) h h' ∧ length h ≤ length h' ∧ ctx_ok h' ctx' ∧
  carrier h' ctx' = filter (λ f, key f ∉ keys) (carrier h ctx) ∧
  (carrier h ctx ≠ [] → keys ≠ [] →
   filter (λ f, key f ∉ keys) (carrier h ctx) = [] →
   ∃ c, ctx = Some c ∧ ctx' = Some (WithValue c contextKeyFields VNil)).
Proof.
  intros Hrun Hok. unfold WithoutKeys in Hrun.
  destruct ctx as [c|]; [|by injection Hrun as <- <-].
  case_bool_decide as Hk0.
  { injection Hrun as <- <-.
    assert (keys = []) as -> by by apply length_zero_iff_nil.
    repeat split; try done.
    symmetry. apply filter_all. intros f. apply not_elem_of_nil. }
  unfold carrier, ctx_ok in *. simpl in *.
  destruct (as_fieldsData (Value c contextKeyFields)) as [p|] eqn:Hb;
    [|injection Hrun as <- <-; simpl; rewrite Hb; by repeat split].
  case_bool_decide as Hl0.
  { injection Hrun as <- <-. simpl. rewrite Hb.
    rewrite (elems_len_0 h (slice p)) by done. by repeat split. }
  rewrite keySet_spec, (right_id_L ∅ (∪)) in Hrun.
  pose proof (slice_ok_below h (slice p) Hok) as Hbp.
  pose proof (make_spec h (len (slice p))) as Hmk.
  unfold make in Hmk, Hrun. cbn [fst snd] in Hmk.
  set (h1 := h ++ [replicate (len (slice p)) zero_field]) in *.
  set (result0 := {| ptr := Some (length h); len := 0;
                     cap := len (slice p) |}) in *.
  destruct Hmk as (Hok0 & Hel0 & _ & Hp0 & Hlen0 & Hag0).
  pose proof (range_keep_spec growslice (length h) (slice p)
                (list_to_set keys) h1 result0) as Hr.
  unfold keep_body in Hr.
  destruct (range (slice p) _ _) as [h2 result] eqn:Hrange.
  simpl in Hr.
  destruct Hr as (Hag2 & Hle2 & Hok2 & Hab2 & Hel2).
  { lia. }
  { by eapply agree_below_ok. }
  { done. }
  { done. }
  { intros q Hq. rewrite Hp0 in Hq. injection Hq as <-. done. }
  rewrite ?Hel0 in Hel2. simpl in Hel2.
  rewrite (agree_below_elems (length h) h h1 (slice p) Hag0 Hbp) in Hel2.
  assert (filter (λ f, key f ∉ (list_to_set keys : gset string))
            (elems h (slice p))
          = filter (λ f, key f ∉ keys) (elems h (slice p))) as Hf.
  { apply list_filter_iff. intros f. by rewrite elem_of_list_to_set. }
  rewrite Hf in Hel2. clear Hf.
  pose proof (length_elems h2 result Hok2) as Hlen2.
  assert (agree_below (length h) h h2) as Hag by by eapply agree_below_trans.
  case_bool_decide as Hr0; injection Hrun as <- <-; simpl.
  - rewrite <- Hel2. rewrite (elems_len_0 h2 result) by done.
    repeat split; [done | lia | by eexists].
  - repeat split; [done | lia | done | done |].
    intros _ _ Hnil. rewrite <- Hel2 in Hnil. rewrite Hnil in Hlen2.
    simpl in Hlen2. lia.
Qed.

End Mutators.

(** ** Readers *)

Lemma GetFirstValue_carrier h c k :
  GetFirstValue h (Some c) k
  = Ok (if bool_decide (k = "") then (AnyNil, false)
        else GetFirstValue_loop (carrier h (Some c)) k).
Proof.
  unfold GetFirstValue, carrier. simpl. case_bool_decide; [done|].
  by destruct (as_fieldsData (Value c contextKeyFields)).
Qed.

Lemma HasKey_carrier h c k :
  HasKey h (Some c) k
  = Ok (if bool_decide (k = "") then false
        else HasKey_loop (carrier h (Some c)) k).
Proof.
  unfold HasKey, carrier. simpl. case_bool_decide; [done|].
  by destruct (as_fieldsData (Value c contextKeyFields)).
Qed.

Lemma GetFirstValue_loop_first pre f post k :
  key f = k → Forall (λ g, key g ≠ k) pre →
  GetFirstValue_loop (pre ++ f :: post) k = (val f, true).
Proof.
  intros Hf Hpre. induction Hpre as [|g pre Hg _ IH]; simpl.
  - by rewrite bool_decide_true.
  - by rewrite bool_decide_false.
Qed.

Lemma GetFirstValue_loop_none fs k :
  Forall (λ g, key g ≠ k) fs → GetFirstValue_loop fs k = (AnyNil, false).
Proof.
  induction 1 as [|g fs Hg _ IH]; simpl; [done|]. by rewrite bool_decide_false.
Qed.

Lemma HasKey_loop_none fs k :
  Forall (λ g, key g ≠ k) fs → HasKey_loop fs k = false.
Proof.
  induction 1 as [|g fs Hg _ IH]; simpl; [done|]. by rewrite bool_decide_false.
Qed.

Section Emission.

Context {W H : Type} `{!slog_Handler W H}.

Lemma foldl_AddAttrs (record : Record_) (fs : list field) :
  foldl (λ record f, AddAttrs record [slog_Any (key f) (val f)]) record fs
  = AddAttrs record (attr_of <$> fs).
Proof.
  revert record. induction fs as [|f fs IH]; intros record; simpl.
  - unfold AddAttrs. rewrite app_nil_r. by destruct record.
  - rewrite IH. unfold AddAttrs. simpl. by rewrite <- app_assoc.
Qed.

(** What the decorator hands to the wrapped sink. *)
Lemma Handler_Handle_carrier (d : Handler H) h c record (w : W) :
  Handler_Handle d h (Some c) record w
  = Handle (wrapped d) (Some c)
      (AddAttrs record (attr_of <$> carrier h (Some c))) w.
Proof.
  unfold Handler_Handle, carrier. simpl.
  destruct (as_fieldsData (Value c contextKeyFields)).
  - by rewrite foldl_AddAttrs.
  - simpl. unfold AddAttrs. rewrite app_nil_r. by destruct record.
Qed.

End Emission.

Lemma pairs_app_single args x :
  Nat.Even (length args) → pairs (args ++ [x]) = pairs args.
Proof.
  intros [m Hm]. revert args Hm.
  induction m as [|m IH]; intros args Hm.
  - by destruct args.
  - destruct args as [|k [|v args]]; simpl in *; try lia.
    rewrite IH; [done | lia].
Qed.

(** Removing every key a carrier holds empties it. *)
Lemma filter_own_keys (fs : list field) :
  filter (λ f, key f ∉ key <$> fs) fs = [].
Proof.
  assert (∀ l, Forall (λ f, f ∈ fs) l →
               filter (λ f, key f ∉ key <$> fs) l = []) as Haux.
  { induction 1 as [|f l Hf _ IH]; [done|].
    rewrite filter_cons_False; [done|].
    intros Hnot. apply Hnot. by apply list_elem_of_fmap_2. }
  apply Haux. by apply Forall_forall.
Qed.

(** ** Chains of derivations *)

Section Chains.

Variable growslice : nat → nat → nat.

Lemma WithoutKeys_Some h c keys :
  is_Some (WithoutKeys growslice h (Some c) keys).2.
Proof.
  unfold WithoutKeys. case_bool_decide; [done|].
  destruct (as_fieldsData (Value c contextKeyFields)) as [p|]; [|done].
  case_bool_decide; [done|].
  destruct (make h (len (slice p))) as [h1 result0].
  destruct (range _ _ _) as [h2 result].
  by case_bool_decide.
Qed.

(** Once [WithoutKeys] has left no field, lookups on its result find
    nothing, and a carrier that held fields is rebound to nil. *)
Lemma WithoutKeys_emptied h c keys :
  ctx_ok h (Some c) →
  filter (λ f, key f ∉ keys) (carrier h (Some c)) = [] →
  ∃ c', (WithoutKeys growslice h (Some c) keys).2 = Some c' ∧
        (∀ k, GetFirstValue (WithoutKeys growslice h (Some c) keys).1
                (Some c') k = Ok (AnyNil, false) ∧
              HasKey (WithoutKeys growslice h (Some c) keys).1
                (Some c') k = Ok false) ∧
        (carrier h (Some c) ≠ [] → c' = WithValue c contextKeyFields VNil).
Proof.
  intros Hok Hnil.
  destruct (WithoutKeys growslice h (Some c) keys) as [h' ctx'] eqn:Hrun.
  destruct (WithoutKeys_spec growslice h (Some c) keys h' ctx' Hrun Hok)
    as (_ & _ & _ & Hc & Hclear).
  destruct (WithoutKeys_Some h c keys) as [c' Hc'].
  rewrite Hrun in Hc'. simpl in Hc'. subst ctx'.
  exists c'. split; [done|]. split.
  - intros k. cbn [fst]. rewrite GetFirstValue_carrier, HasKey_carrier, Hc, Hnil.
    simpl. by case_bool_decide.
  - intros Hne. destruct Hclear as (c0 & [= <-] & [= ->]); try done.
    intros ->. apply Hne. rewrite <- Hnil.
    symmetry. apply filter_all. intros f. apply not_elem_of_nil.
Qed.

(** One call: the arrays of the old heap are intact, the new context is
    well formed. *)
Lemma apply_call_spec cl h ctx h' ctx' :
  apply_call growslice cl (h, ctx) = Ok (h', ctx') →
  ctx_ok h ctx →
  agree_below (length h) h h' ∧ length h ≤ length h' ∧ ctx_ok h' ctx'.
Proof.
  intros Hrun Hok. destruct cl as [args|args|keys|]; simpl in Hrun.
  - injection Hrun as Hrun.
    destruct (WithValues_spec growslice h ctx args h' ctx' Hrun Hok)
      as (? & ? & ? & _). done.
  - injection Hrun as Hrun.
    destruct (WithUniqueValues_spec growslice h ctx args h' ctx' Hrun Hok)
      as (? & ? & ? & _). done.
  - injection Hrun as Hrun.
    destruct (WithoutKeys_spec growslice h ctx keys h' ctx' Hrun Hok)
      as (? & ? & ? & _). done.
  - destruct ctx as [c|]; [|done]. simpl in Hrun.
    injection Hrun as <- <-. by split; [apply agree_below_refl|].
Qed.

Lemma derive_spec cs :
  ∀ h ctx h' ctx',
    derive growslice cs (h, ctx) = Ok (h', ctx') →
    ctx_ok h ctx →
    agree_below (length h) h h' ∧ length h ≤ length h' ∧ ctx_ok h' ctx'.
Proof.
  induction cs as [|cl cs IH]; intros h ctx h' ctx' Hrun Hok; simpl in Hrun.
  - injection Hrun as <- <-. by split; [apply agree_below_refl|].
  - destruct (apply_call growslice cl (h, ctx)) as [[h1 ctx1]|] eqn:Hcl;
      [|done].
    destruct (apply_call_spec cl h ctx h1 ctx1 Hcl Hok) as (Hag1 & Hle1 & Hok1).
    destruct (IH h1 ctx1 h' ctx' Hrun Hok1) as (Hag2 & Hle2 & Hok2).
    repeat split; [|lia|done].
    eapply agree_below_trans; [done|]. by eapply agree_below_le.
Qed.

(** A chain of calls that add fields never panics and ends in a non-nil
    context as soon as it starts from one or makes one call. *)
Lemma derive_adds cs :
  ∀ h ctx,
    forallb adds cs = true →
    ∃ h' ctx', derive growslice cs (h, ctx) = Ok (h', ctx') ∧
               (is_Some ctx ∨ cs ≠ [] → is_Some ctx').
Proof.
  induction cs as [|cl cs IH]; intros h ctx Hadds; simpl in *.
  - exists h, ctx. split; [done|]. by intros [?|?].
  - apply andb_prop in Hadds as [Hcl Hcs].
    assert (∃ h1 c1, apply_call growslice cl (h, ctx) = Ok (h1, Some c1))
      as (h1 & c1 & Hrun).
    { destruct cl as [args|args|keys|]; try done; simpl.
      - destruct (WithValues growslice h ctx args) as [h1 ctx1] eqn:Hw.
        assert (is_Some ctx1) as [c1 ->]; [|by eauto].
        unfold WithValues in Hw.
        repeat (case_bool_decide || case_match || simplify_eq); eauto.
      - destruct (WithUniqueValues growslice h ctx args) as [h1 ctx1] eqn:Hw.
        assert (is_Some ctx1) as [c1 ->]; [|by eauto].
        unfold WithUniqueValues in Hw.
        repeat (case_bool_decide || case_match || simplify_eq); eauto. }
    rewrite Hrun.
    destruct (IH h1 (Some c1) Hcs) as (h' & ctx' & Hd & Hsome).
    exists h', ctx'. split; [done|]. intros _. apply Hsome. by left.
Qed.



End Chains.

(** ** The repository's examples and tests, evaluated *)

(** Go's aliasing is visible in the heap: appending twice to the same
    slice with spare capacity writes the same cell twice, and the slice
    obtained first sees the second write. *)
Example append_shares_array :
  let f1 := {| key := "a"; val := AnyInt 1 |} in
  let f2 := {| key := "b"; val := AnyInt 2 |} in
  let f3 := {| key := "c"; val := AnyInt 3 |} in
  let '(h, s0) := make [] 2 in
  let '(h, s1) := append double_cap h s0 [f1] in
  let '(h, s2) := append double_cap h s1 [f2] in
  let '(h', s3) := append double_cap h s1 [f3] in
  elems h s2 = [f1; f2] ∧ elems h' s2 = [f1; f3] ∧ elems h' s3 = [f1; f3].
Proof. vm_compute. done. Qed.

(** Every context derived from nil on the empty heap is well formed. *)
Lemma derive_from_root_ok growslice cs h' ctx' :
  derive growslice cs ([], None) = Ok (h', ctx') → ctx_ok h' ctx'.
Proof.
  intros Hd. by destruct (derive_spec growslice cs [] None h' ctx' Hd I)
    as (_ & _ & ?).
Qed.

(** [ExampleWith]: req=abc req=def user=Jan, then user=Jan once the "req"
    fields are removed. *)
Example ExampleWith :
  let '(h, ctx) := WithValues double_cap [] None
                     [AnyString "req"; AnyString "abc"; AnyString "req";
                      AnyString "def"; AnyString "user"; AnyString "Jan"] in
  let '(h', ctx') := WithoutKeys double_cap h ctx ["req"] in
  attr_of <$> carrier h ctx
  = [slog_Any "req" (AnyString "abc"); slog_Any "req" (AnyString "def");
     slog_Any "user" (AnyString "Jan")] ∧
  attr_of <$> carrier h' ctx' = [slog_Any "user" (AnyString "Jan")].
Proof. vm_compute. done. Qed.

(** [ExampleWithUniqueValues]: user=Alice role=admin, then role=admin
    user=Bob session=xyz. *)
Example ExampleWithUniqueValues :
  let '(h, ctx) := WithValues double_cap [] None
                     [AnyString "user"; AnyString "Alice";
                      AnyString "role"; AnyString "admin"] in
  let '(h', ctx') := WithUniqueValues double_cap h ctx
                       [AnyString "user"; AnyString "Bob";
                        AnyString "session"; AnyString "xyz"] in
  Handler_Handle (NewHandler NewObservedHandler) h' ctx' bare_record []
  = Ok ([ {| ol_Level := 0; ol_Message := "msg";
             ol_Attrs := [slog_Any "role" (AnyString "admin");
                          slog_Any "user" (AnyString "Bob");
                          slog_Any "session" (AnyString "xyz")];
             ol_Groups := [] |} ], None).
Proof. vm_compute. done. Qed.

(** [ExampleWithoutAllKeys]: id=123 status=ok, then no attribute. *)
Example ExampleWithoutAllKeys :
  let '(h, ctx) := WithValues double_cap [] None
                     [AnyString "id"; AnyInt 123;
                      AnyString "status"; AnyString "ok"] in
  carrier h ctx = [ {| key := "id"; val := AnyInt 123 |};
                    {| key := "status"; val := AnyString "ok" |} ] ∧
  match WithoutAllKeys ctx with
  | Ok cleared => carrier h cleared = []
  | Panic => False
  end.
Proof. vm_compute. done. Qed.

(** [TestWithValues_InvalidKeys] and [TestWithValues_OddArgs]. *)
Example TestWithValues_InvalidKeys :
  let '(h, ctx) := WithValues double_cap [] (Some Background)
                     [AnyString ""; AnyInt 1; AnyInt 123; AnyString "bad";
                      AnyString "ok"; AnyInt 42] in
  carrier h ctx = [ {| key := "ok"; val := AnyInt 42 |} ].
Proof. vm_compute. done. Qed.

Example TestWithValues_OddArgs :
  let '(h, ctx) := WithValues double_cap [] (Some Background)
                     [AnyString "a"; AnyInt 1; AnyString "b"] in
  carrier h ctx = [ {| key := "a"; val := AnyInt 1 |} ] ∧
  HasKey h ctx "b" = Ok false.
Proof. vm_compute. done. Qed.

(** [TestGetFirstValue_DuplicateKeys]: the first occurrence is returned. *)
Example TestGetFirstValue_DuplicateKeys :
  let '(h, ctx) := WithValues double_cap [] (Some Background)
                     [AnyString "a"; AnyInt 1] in
  let '(h, ctx) := WithValues double_cap h ctx [AnyString "a"; AnyInt 2] in
  GetFirstValue h ctx "a" = Ok (AnyInt 1, true).
Proof. vm_compute. done. Qed.

(** [TestHandler_NestedGroupsAndAttrs]: static attributes, groups and the
    context's field all reach the sink. *)
Example TestHandler_NestedGroupsAndAttrs :
  let h3 :=
    WithAttrs
      (WithGroup
         (WithAttrs (WithGroup (NewHandler NewObservedHandler) "outer")
            [slog_Any "foo" (AnyString "bar")])
         "inner")
      [slog_Any "baz" (AnyString "qux")] in
  let '(h, ctx) := WithValues double_cap [] (Some Background)
                     [AnyString "ctxKey"; AnyInt 123] in
  Handle h3 ctx bare_record (h, [])
  = Ok ((h, [ {| ol_Level := 0; ol_Message := "msg";
                 ol_Attrs := [slog_Any "foo" (AnyString "bar");
                              slog_Any "baz" (AnyString "qux");
                              slog_Any "ctxKey" (AnyInt 123)];
                 ol_Groups := ["outer"; "inner"] |} ]), None).
Proof. vm_compute. done. Qed.

(** The decorator on the sample context: the attribute of the call site
    comes first, the carrier's fields follow in insertion order. *)
Example Handle_sample :
  Handler_Handle (NewHandler NewObservedHandler) sample_heap
    (Some sample_ctx) sample_record []
  = Ok ([ {| ol_Level := 0; ol_Message := "Hello";
             ol_Attrs := [slog_Any "site" (AnyInt 7);
                          slog_Any "req" (AnyString "abc");
                          slog_Any "user" (AnyString "Jan");
                          slog_Any "req" (AnyString "def")];
             ol_Groups := [] |} ], None).
Proof. vm_compute. done. Qed.

(** * The claims *)

(** C1.  For every context, a nil context standing for the empty root, and
    every argument list, [WithValues] keeps exactly the pairs whose key
    position holds a non-empty string, drops a trailing unpaired argument,
    and returns a context whose carrier is the old carrier followed by the
    kept fields in their original order; duplicate keys, against existing
    fields or within the batch, are all retained. *)
Theorem WithValues_appends growslice h ctx args :
  ctx_ok h ctx →
  WithValues growslice h None args
    = WithValues growslice h (Some Background) args ∧
  (let r := WithValues growslice h ctx args in
   carrier r.1 r.2 = carrier h ctx ++ kept_fields args) ∧
  (∀ x, Nat.Even (length args) →
        let r := WithValues growslice h ctx (args ++ [x]) in
        carrier r.1 r.2 = carrier h ctx ++ kept_fields args).
Proof.
  intros Hok. split; [done|]. split.
  - destruct (WithValues growslice h ctx args) as [h' ctx'] eqn:Hrun.
    by destruct (WithValues_spec growslice h ctx args h' ctx' Hrun Hok)
      as (_ & _ & _ & ? & _).
  - intros x Heven.
    destruct (WithValues growslice h ctx (args ++ [x])) as [h' ctx'] eqn:Hrun.
    destruct (WithValues_spec growslice h ctx _ h' ctx' Hrun Hok)
      as (_ & _ & _ & Hc & _).
    simpl. rewrite Hc. unfold kept_fields. by rewrite pairs_app_single.
Qed.

Lemma WithValues_appends_witness :
  ctx_ok sample_heap (Some sample_ctx) ∧
  (let r := WithValues double_cap sample_heap (Some sample_ctx)
              [AnyString ""; AnyInt 1; AnyInt 123; AnyString "bad";
               AnyString "req"; AnyInt 42; AnyString "b"] in
   carrier r.1 r.2
   = carrier sample_heap (Some sample_ctx)
     ++ [ {| key := "req"; val := AnyInt 42 |} ]).
Proof.
  split; [exact I|].
  exact (proj1 (proj2 (WithValues_appends double_cap sample_heap
                         (Some sample_ctx) _ I))).
Defined.


(** C3.  For every context and every non-empty key, [GetFirstValue] returns
    the value of the earliest field in insertion order whose key matches,
    with [true]; it returns [(nil, false)] when the key is empty, when
    nothing is bound or when no field matches.  After
    [WithValues(WithValues(ctx, "a", 1), "a", 2)] on a context without an
    ["a"], the key ["a"] yields [(1, true)]. *)
Theorem GetFirstValue_first_match growslice h c k :
  k ≠ "" →
  (∀ pre f post,
     carrier h (Some c) = pre ++ f :: post → key f = k →
     Forall (λ g, key g ≠ k) pre →
     GetFirstValue h (Some c) k = Ok (val f, true)) ∧
  (Forall (λ g, key g ≠ k) (carrier h (Some c)) →
   GetFirstValue h (Some c) k = Ok (AnyNil, false)) ∧
  (bound (Some c) = None → GetFirstValue h (Some c) k = Ok (AnyNil, false)) ∧
  GetFirstValue h (Some c) "" = Ok (AnyNil, false) ∧
  (∀ ctx, ctx_ok h ctx → Forall (λ g, key g ≠ "a") (carrier h ctx) →
     let r1 := WithValues growslice h ctx [AnyString "a"; AnyInt 1] in
     let r2 := WithValues growslice r1.1 r1.2 [AnyString "a"; AnyInt 2] in
     ∃ c2, r2.2 = Some c2 ∧
           GetFirstValue r2.1 (Some c2) "a" = Ok (AnyInt 1, true)).
Proof.
  intros Hk. rewrite !GetFirstValue_carrier.
  rewrite (bool_decide_false (k = "")) by done. repeat split.
  - intros pre f post -> Hf Hpre. by rewrite GetFirstValue_loop_first.
  - intros Hall. by rewrite GetFirstValue_loop_none.
  - intros Hb. unfold carrier. by rewrite Hb.
  - intros ctx Hok Hall. cbv zeta.
    destruct (WithValues growslice h ctx [AnyString "a"; AnyInt 1])
      as [h1 ctx1] eqn:Hrun1. cbn [fst snd].
    destruct (WithValues_spec growslice h ctx _ h1 ctx1 Hrun1 Hok)
      as (_ & _ & Hok1 & Hc1 & _).
    destruct (WithValues growslice h1 ctx1 [AnyString "a"; AnyInt 2])
      as [h2 ctx2] eqn:Hrun2.
    destruct (WithValues_spec growslice h1 ctx1 _ h2 ctx2 Hrun2 Hok1)
      as (_ & _ & _ & Hc2 & _ & Hnew).
    destruct Hnew as [p ->]; [done|]. cbn [fst snd].
    eexists. split; [done|].
    rewrite GetFirstValue_carrier, Hc2, Hc1. simpl.
    rewrite <- app_assoc. simpl.
    by rewrite (GetFirstValue_loop_first _ {| key := "a"; val := AnyInt 1 |}).
Qed.

Lemma GetFirstValue_first_match_witness :
  "req" ≠ "" ∧
  GetFirstValue sample_heap (Some sample_ctx) "req" = Ok (AnyString "abc", true).
Proof.
  split; [done|].
  apply (proj1 (GetFirstValue_first_match double_cap sample_heap sample_ctx
                  "req" ltac:(done))
           [] {| key := "req"; val := AnyString "abc" |}
           [ {| key := "user"; val := AnyString "Jan" |};
             {| key := "req"; val := AnyString "def" |} ]);
    [reflexivity | reflexivity | constructor].
Defined.

(** C4.  For every context and argument list, [WithUniqueValues] reads the
    pairs as [WithValues] does, removes from the existing carrier every
    field whose key occurs in the new batch and appends the batch at the
    end, the remaining fields keeping their order.  Emitting after
    [WithUniqueValues(WithValues(ctx, "user", "Alice", "role", "admin"),
    "user", "Bob", "session", "xyz")] on a context that carries nothing
    yields the attributes role=admin, user=Bob, session=xyz. *)
Theorem WithUniqueValues_replaces {W H : Type} `{!slog_Handler W H}
    growslice h ctx args :
  ctx_ok h ctx →
  (let r := WithUniqueValues growslice h ctx args in
   carrier r.1 r.2
   = filter (λ f, key f ∉ key <$> kept_fields args) (carrier h ctx)
     ++ kept_fields args) ∧
  (carrier h ctx = [] →
   let r1 := WithValues growslice h ctx
               [AnyString "user"; AnyString "Alice";
                AnyString "role"; AnyString "admin"] in
   let r2 := WithUniqueValues growslice r1.1 r1.2
               [AnyString "user"; AnyString "Bob";
                AnyString "session"; AnyString "xyz"] in
   ∃ c2, r2.2 = Some c2 ∧
     ∀ (d : Handler H) record (w : W),
       Handler_Handle d r2.1 (Some c2) record w
       = Handle (wrapped d) (Some c2)
           (AddAttrs record [slog_Any "role" (AnyString "admin");
                             slog_Any "user" (AnyString "Bob");
                             slog_Any "session" (AnyString "xyz")]) w).
Proof.
  intros Hok. split.
  - destruct (WithUniqueValues growslice h ctx args) as [h' ctx'] eqn:Hrun.
    by destruct (WithUniqueValues_spec growslice h ctx args h' ctx' Hrun Hok)
      as (_ & _ & _ & ? & _).
  - intros Hnil. cbv zeta.
    destruct (WithValues growslice h ctx _) as [h1 ctx1] eqn:Hrun1.
    cbn [fst snd].
    destruct (WithValues_spec growslice h ctx _ h1 ctx1 Hrun1 Hok)
      as (_ & _ & Hok1 & Hc1 & _).
    destruct (WithUniqueValues growslice h1 ctx1 _) as [h2 ctx2] eqn:Hrun2.
    destruct (WithUniqueValues_spec growslice h1 ctx1 _ h2 ctx2 Hrun2 Hok1)
      as (_ & _ & _ & Hc2 & _ & Hnew).
    destruct Hnew as [p ->]; [done|]. cbn [fst snd].
    eexists. split; [done|].
    intros d record w.
    rewrite Handler_Handle_carrier, Hc2, Hc1, Hnil. done.
Qed.

Lemma WithUniqueValues_replaces_witness :
  ctx_ok sample_heap (Some sample_ctx) ∧
  (let r := WithUniqueValues double_cap sample_heap (Some sample_ctx)
              [AnyString "req"; AnyInt 1; AnyString "id"; AnyInt 2] in
   carrier r.1 r.2
   = [ {| key := "user"; val := AnyString "Jan" |};
       {| key := "req"; val := AnyInt 1 |};
       {| key := "id"; val := AnyInt 2 |} ]).
Proof.
  split; [exact I|].
  exact (proj1 (WithUniqueValues_replaces (W := list ObservedLog)
                  (H := ObservedHandler) double_cap sample_heap
                  (Some sample_ctx) _ I)).
Defined.

(** C5.  For every context and key list, [WithoutKeys] returns a context
    whose carrier holds exactly the existing fields whose key is not among
    the keys, in their original order.  A nil context and an empty key list
    give the input context back.  When no field remains, lookups on the
    result find nothing, and a carrier that has been emptied leaves the
    binding cleared. *)
Theorem WithoutKeys_removes growslice h ctx keys :
  ctx_ok h ctx →
  (let r := WithoutKeys growslice h ctx keys in
   carrier r.1 r.2 = filter (λ f, key f ∉ keys) (carrier h ctx) ∧
   (filter (λ f, key f ∉ keys) (carrier h ctx) = [] →
    ∀ c, ctx = Some c →
      ∃ c', r.2 = Some c' ∧
        (∀ k, GetFirstValue r.1 (Some c') k = Ok (AnyNil, false) ∧
              HasKey r.1 (Some c') k = Ok false) ∧
        (carrier h ctx ≠ [] →
         c' = WithValue c contextKeyFields VNil))) ∧
  WithoutKeys growslice h None keys = (h, None) ∧
  WithoutKeys growslice h ctx [] = (h, ctx).
Proof.
  intros Hok. split; [|split; [done | by destruct ctx]].
  cbv zeta. split.
  - destruct (WithoutKeys growslice h ctx keys) as [h' ctx'] eqn:Hrun.
    by destruct (WithoutKeys_spec growslice h ctx keys h' ctx' Hrun Hok)
      as (_ & _ & _ & ? & _).
  - intros Hnil c ->. by apply WithoutKeys_emptied.
Qed.

Lemma WithoutKeys_removes_witness :
  ctx_ok sample_heap (Some sample_ctx) ∧
  (let r := WithoutKeys double_cap sample_heap (Some sample_ctx) ["req"] in
   carrier r.1 r.2 = [ {| key := "user"; val := AnyString "Jan" |} ]).
Proof.
  split; [exact I|].
  exact (proj1 (proj1 (WithoutKeys_removes double_cap sample_heap
                         (Some sample_ctx) ["req"] I))).
Defined.

(** C6.  For every context reached by a chain of [WithValues] and
    [WithUniqueValues] calls, [WithoutAllKeys] yields a context on which
    [GetFirstValue] returns [(nil, false)] and [HasKey] returns [false] for
    every key, and through which the decorator hands the record to the sink
    as the call site built it.  A context emptied by [WithoutKeys] answers
    [GetFirstValue] and [HasKey] in the same way. *)
Theorem WithoutAllKeys_clears {W H : Type} `{!slog_Handler W H}
    growslice (cs : list call) h ctx :
  forallb adds cs = true → ctx_ok h ctx → is_Some ctx ∨ cs ≠ [] →
  ∃ h' c',
    derive growslice cs (h, ctx) = Ok (h', Some c') ∧
    let cleared := Some (WithValue c' contextKeyFields VNil) in
    WithoutAllKeys (Some c') = Ok cleared ∧
    (∀ k, GetFirstValue h' cleared k = Ok (AnyNil, false) ∧
          HasKey h' cleared k = Ok false) ∧
    (∀ (d : Handler H) record (w : W),
       Handler_Handle d h' cleared record w
       = Handle (wrapped d) cleared record w) ∧
    (let e := WithoutKeys growslice h' (Some c')
                (key <$> carrier h' (Some c')) in
     ∀ k, GetFirstValue e.1 e.2 k = GetFirstValue h' cleared k ∧
          HasKey e.1 e.2 k = HasKey h' cleared k).
Proof.
  intros Hadds Hok Hstart.
  destruct (derive_adds growslice cs h ctx Hadds) as (h' & ctx' & Hd & Hsome).
  destruct (Hsome Hstart) as [c' ->].
  destruct (derive_spec growslice cs h ctx h' (Some c') Hd Hok)
    as (_ & _ & Hok').
  exists h', c'. split; [done|]. cbv zeta.
  assert (∀ k, GetFirstValue h' (Some (WithValue c' contextKeyFields VNil)) k
               = Ok (AnyNil, false) ∧
               HasKey h' (Some (WithValue c' contextKeyFields VNil)) k
               = Ok false) as Hcleared.
  { intros k. rewrite GetFirstValue_carrier, HasKey_carrier.
    unfold carrier. simpl. by case_bool_decide. }
  split; [done|]. split; [done|]. split.
  - intros d record w. rewrite Handler_Handle_carrier.
    unfold carrier, AddAttrs. simpl. rewrite app_nil_r. by destruct record.
  - destruct (WithoutKeys_emptied growslice h' c'
                (key <$> carrier h' (Some c')) Hok' (filter_own_keys _))
      as (c'' & Hres & Habsent & _).
    rewrite Hres.
    intros k. destruct (Habsent k) as [-> ->].
    by destruct (Hcleared k) as [-> ->].
Qed.

Lemma WithoutAllKeys_clears_witness :
  forallb adds [CallWithValues [AnyString "id"; AnyInt 123];
                CallWithUniqueValues [AnyString "id"; AnyInt 7]] = true ∧
  ctx_ok sample_heap (Some sample_ctx) ∧
  ∃ h' c',
    derive double_cap
      [CallWithValues [AnyString "id"; AnyInt 123];
       CallWithUniqueValues [AnyString "id"; AnyInt 7]]
      (sample_heap, Some sample_ctx) = Ok (h', Some c') ∧
    GetFirstValue h' (Some (WithValue c' contextKeyFields VNil)) "req"
    = Ok (AnyNil, false).
Proof.
  split; [reflexivity|]. split; [exact I|].
  destruct (WithoutAllKeys_clears (W := list ObservedLog) (H := ObservedHandler)
              double_cap
              [CallWithValues [AnyString "id"; AnyInt 123];
               CallWithUniqueValues [AnyString "id"; AnyInt 7]]
              sample_heap (Some sample_ctx) eq_refl I
              (or_introl (ex_intro _ sample_ctx eq_refl)))
    as (h' & c' & Hd & _ & Habsent & _).
  exists h', c'. split; [exact Hd|]. exact (proj1 (Habsent "req")).
Defined.

Lemma agree_unchanged {W H : Type} `{!slog_Handler W H} h h' ctx :
  agree_below (length h) h h' → ctx_ok h ctx → unchanged (W := W) (H := H) h h' ctx.
Proof.
  intros Hag Hok. destruct (carrier_agree h h' ctx Hag Hok) as [_ Hc].
  split; [done|]. destruct ctx as [c|].
  - split.
    + intros k. by rewrite !GetFirstValue_carrier, !HasKey_carrier, Hc.
    + intros d record w. by rewrite !Handler_Handle_carrier, Hc.
  - by split.
Qed.

(** C7.  For every parent context, no mutator and no chain of mutators
    applied to it changes what the parent carries: every array of the heap
    is left as it was, because the mutators write only to arrays they have
    allocated, so [GetFirstValue], [HasKey] and emission on the parent, and
    on any other context, return what they returned before. *)
Theorem mutators_preserve_parent {W H : Type} `{!slog_Handler W H}
    growslice (cs : list call) h parent h' child :
  ctx_ok h parent →
  derive growslice cs (h, parent) = Ok (h', child) →
  (∀ q, q < length h → h' !! q = h !! q) ∧
  unchanged (W := W) (H := H) h h' parent ∧
  (∀ other, ctx_ok h other → unchanged (W := W) (H := H) h h' other).
Proof.
  intros Hok Hd.
  destruct (derive_spec growslice cs h parent h' child Hd Hok) as (Hag & _ & _).
  split; [exact Hag|]. split; [by apply agree_unchanged|].
  intros other Hother. by apply agree_unchanged.
Qed.

Lemma mutators_preserve_parent_witness :
  ctx_ok sample_heap (Some sample_ctx) ∧
  ∃ h' child,
    derive double_cap
      [CallWithValues [AnyString "req"; AnyInt 1];
       CallWithUniqueValues [AnyString "user"; AnyString "Bob"];
       CallWithoutKeys ["req"]; CallWithoutAllKeys]
      (sample_heap, Some sample_ctx) = Ok (h', child) ∧
    carrier h' (Some sample_ctx) = carrier sample_heap (Some sample_ctx).
Proof.
  split; [exact I|]. eexists _, _. split; [vm_compute; reflexivity|].
  refine (proj1 (proj1 (proj2 (mutators_preserve_parent
            (W := list ObservedLog) (H := ObservedHandler) double_cap
            [CallWithValues [AnyString "req"; AnyInt 1];
             CallWithUniqueValues [AnyString "user"; AnyString "Bob"];
             CallWithoutKeys ["req"]; CallWithoutAllKeys]
            sample_heap (Some sample_ctx) _ _ I _)))).
  vm_compute. reflexivity.
Defined.

(** The decorator of [slogctx] stays a decorator under [WithAttrs] and
    [WithGroup]: the handler returned still injects the carrier, under the
    fields' own keys. *)
Lemma Handler_With_injects {W H : Type} `{!slog_Handler W H}
    (d : Handler H) attrs name h c record (w : W) :
  wrapped (Handler_WithAttrs d attrs) = WithAttrs (wrapped d) attrs ∧
  wrapped (Handler_WithGroup d name) = WithGroup (wrapped d) name ∧
  Handler_Handle (Handler_WithAttrs d attrs) h (Some c) record w
  = Handle (WithAttrs (wrapped d) attrs) (Some c)
      (AddAttrs record (attr_of <$> carrier h (Some c))) w ∧
  Handler_Handle (Handler_WithGroup d name) h (Some c) record w
  = Handle (WithGroup (wrapped d) name) (Some c)
      (AddAttrs record (attr_of <$> carrier h (Some c))) w.
Proof. by rewrite !Handler_Handle_carrier. Qed.

(** The older handler delegates in the same way: what the wrapped sink
    returns is what [Handle] returns, and a context without a map under
    [keyFields] passes the record on as it is. *)
Lemma Legacy_Handle_delegates {W H : Type} `{!slog_Handler W H}
    (d : Handler H) c record (w : W) :
  ∃ record',
    Legacy.Handler_Handle d (Some c) record w
    = Handle (wrapped d) (Some c) record' w ∧
    match Value c keyFields with
    | VSyncMap _ => True
    | _ => record' = record
    end.
Proof.
  unfold Legacy.Handler_Handle. eexists. split; [done|].
  by destruct (Value c keyFields).
Qed.

(** C8.  [WithAttrs] and [WithGroup] of the decorator are to return a new
    decorator around the wrapped sink's [WithAttrs(attrs)] and
    [WithGroup(name)], so that the fields a context carries are still
    injected.  [WithGroup] of the older handler does not: it returns the
    wrapped sink's own handler.  On a context that carries a=1 the older
    handler emits a=1, the handler its [WithGroup] returns emits no
    attribute, the handler its [WithAttrs] returns emits a=1. *)
Theorem Legacy_WithGroup_drops_decorator :
  Legacy.Handler_Handle (NewHandler NewObservedHandler)
    (Some legacy_ctx) bare_record []
  = Ok ([ {| ol_Level := 0; ol_Message := "msg";
             ol_Attrs := [slog_Any "a" (AnyInt 1)]; ol_Groups := [] |} ],
        None) ∧
  Handle (Legacy.Handler_WithGroup (NewHandler NewObservedHandler) "g")
    (Some legacy_ctx) bare_record []
  = Ok ([ {| ol_Level := 0; ol_Message := "msg";
             ol_Attrs := []; ol_Groups := ["g"] |} ], None) ∧
  Legacy.Handler_Handle
    (Legacy.Handler_WithAttrs (NewHandler NewObservedHandler) [])
    (Some legacy_ctx) bare_record []
  = Ok ([ {| ol_Level := 0; ol_Message := "msg";
             ol_Attrs := [slog_Any "a" (AnyInt 1)]; ol_Groups := [] |} ],
        None).
Proof. repeat split. Qed.



(** C10.  On a nil context [GetFirstValue] and [HasKey] return
    [(nil, false)] and [false] for the empty key and panic for every other
    key; [WithValues] and [WithUniqueValues] put the empty root in place of
    a nil context, which [WithoutKeys], returning nil, and [WithoutAllKeys]
    and [Handle], panicking, do not. *)
Theorem nil_context_asymmetry {W H : Type} `{!slog_Handler W H}
    growslice h k args keys :
  k ≠ "" →
  GetFirstValue h None "" = Ok (AnyNil, false) ∧
  HasKey h None "" = Ok false ∧
  GetFirstValue h None k = Panic ∧
  HasKey h None k = Panic ∧
  WithValues growslice h None args
    = WithValues growslice h (Some Background) args ∧
  WithUniqueValues growslice h None args
    = WithUniqueValues growslice h (Some Background) args ∧
  is_Some (WithValues growslice h None args).2 ∧
  is_Some (WithUniqueValues growslice h None args).2 ∧
  WithoutKeys growslice h None keys = (h, None) ∧
  WithoutAllKeys None = Panic ∧
  (∀ (d : Handler H) record (w : W),
     Handler_Handle d h None record w = Panic).
Proof.
  intros Hk. unfold GetFirstValue, HasKey.
  rewrite !(bool_decide_false (k = "")) by done.
  repeat split; try done.
  - unfold WithValues.
    repeat (case_bool_decide || case_match || simplify_eq); eauto.
  - unfold WithUniqueValues.
    repeat (case_bool_decide || case_match || simplify_eq); eauto.
Qed.

Lemma nil_context_asymmetry_witness :
  "user" ≠ "" ∧ GetFirstValue sample_heap None "user" = Panic ∧
  HasKey sample_heap None "user" = Panic.
Proof.
  split; [done|].
  pose proof (nil_context_asymmetry (W := list ObservedLog)
                (H := ObservedHandler) double_cap sample_heap "user" [] []
                ltac:(done)) as (_ & _ & Hg & Hh & _).
  by split.
Defined.

(** * Further properties of the code *)

(** ** Lookups *)

Lemma HasKey_loop_GetFirstValue fs k :
  HasKey_loop fs k = (GetFirstValue_loop fs k).2.
Proof.
  induction fs as [|f fs IH]; simpl; [done|]. by case_bool_decide.
Qed.

Lemma HasKey_loop_true fs k :
  HasKey_loop fs k = true ↔ ∃ f, f ∈ fs ∧ key f = k.
Proof.
  induction fs as [|f fs IH]; simpl.
  - split; [done|]. intros (f & Hf & _). by apply elem_of_nil in Hf.
  - case_bool_decide as Hk.
    + split; [|done]. intros _. exists f. split; [apply elem_of_cons; by left | done].
    + rewrite IH. split.
      * intros (g & Hg & Hgk). exists g. split; [apply elem_of_cons; by right | done].
      * intros (g & Hg & Hgk). apply elem_of_cons in Hg as [->|Hg]; [done|].
        by exists g.
Qed.

Lemma GetFirstValue_loop_found fs k v :
  GetFirstValue_loop fs k = (v, true) → ∃ f, f ∈ fs ∧ key f = k ∧ val f = v.
Proof.
  induction fs as [|f fs IH]; simpl; [done|].
  case_bool_decide as Hk.
  - intros [= <-]. exists f. split; [apply elem_of_cons; by left | done].
  - intros Hv. destruct (IH Hv) as (g & Hg & Hgk & Hgv).
    exists g. split; [apply elem_of_cons; by right | done].
Qed.

Lemma GetFirstValue_loop_app fs gs k :
  GetFirstValue_loop (fs ++ gs) k
  = if HasKey_loop fs k then GetFirstValue_loop fs k
    else GetFirstValue_loop gs k.
Proof.
  induction fs as [|f fs IH]; simpl; [done|]. by case_bool_decide.
Qed.

Lemma HasKey_loop_app fs gs k :
  HasKey_loop (fs ++ gs) k = HasKey_loop fs k || HasKey_loop gs k.
Proof.
  induction fs as [|f fs IH]; simpl; [done|]. by case_bool_decide.
Qed.

Lemma GetFirstValue_loop_filter (P : string → Prop) `{!∀ x, Decision (P x)}
    fs k :
  GetFirstValue_loop (filter (λ f, P (key f)) fs) k
  = if decide (P k) then GetFirstValue_loop fs k else (AnyNil, false).
Proof.
  induction fs as [|f fs IH]; simpl.
  - by case_decide.
  - rewrite filter_cons. destruct (decide (P (key f))) as [Hf|Hf]; simpl.
    + case_bool_decide as Hk; [subst; by rewrite decide_True|]. exact IH.
    + rewrite IH. case_decide as Hk; [|done].
      rewrite bool_decide_false; [done|]. intros Heq. apply Hf. by rewrite Heq.
Qed.

Lemma HasKey_loop_filter (P : string → Prop) `{!∀ x, Decision (P x)} fs k :
  HasKey_loop (filter (λ f, P (key f)) fs) k
  = if decide (P k) then HasKey_loop fs k else false.
Proof.
  rewrite !HasKey_loop_GetFirstValue, GetFirstValue_loop_filter.
  by case_decide.
Qed.

Lemma GetFirstValue_loop_without (ks : list string) fs k :
  GetFirstValue_loop (filter (λ f, key f ∉ ks) fs) k
  = if decide (k ∈ ks) then (AnyNil, false) else GetFirstValue_loop fs k.
Proof.
  pose proof (GetFirstValue_loop_filter (λ x, x ∉ ks) fs k) as Hf.
  simpl in Hf. rewrite Hf. destruct (decide (k ∈ ks)) as [Hin|Hin].
  - rewrite decide_False; [done|]. intros Hnot. by apply Hnot.
  - by rewrite decide_True.
Qed.

Lemma HasKey_loop_without (ks : list string) fs k :
  HasKey_loop (filter (λ f, key f ∉ ks) fs) k
  = if decide (k ∈ ks) then false else HasKey_loop fs k.
Proof.
  rewrite !HasKey_loop_GetFirstValue, GetFirstValue_loop_without.
  by case_decide.
Qed.

Lemma HasKey_as_GetFirstValue h ctx k :
  HasKey h ctx k
  = match GetFirstValue h ctx k with
    | Ok (_, found) => Ok found
    | Panic => Panic
    end.
Proof.
  unfold HasKey, GetFirstValue. case_bool_decide; [done|].
  destruct ctx as [c|]; [|done].
  destruct (as_fieldsData (Value c contextKeyFields)) as [p|]; [|done].
  rewrite HasKey_loop_GetFirstValue.
  by destruct (GetFirstValue_loop (elems h (slice p)) k).
Qed.

(** X1.  [HasKey] and [GetFirstValue] agree on every context and key,
    the nil context included: [HasKey] answers what [GetFirstValue]
    reports as found, and panics exactly when it does. *)
Theorem HasKey_agrees_with_GetFirstValue h ctx k :
  HasKey h ctx k
  = match GetFirstValue h ctx k with
    | Ok (_, found) => Ok found
    | Panic => Panic
    end.
Proof. apply HasKey_as_GetFirstValue. Qed.

(** X2.  On a non-nil context [HasKey] answers [true] exactly for the
    non-empty keys of the fields the context carries, and what
    [GetFirstValue] finds is the value of a carried field of that key. *)
Theorem lookups_sound_and_complete h c k :
  (HasKey h (Some c) k = Ok true
   ↔ k ≠ "" ∧ ∃ f, f ∈ carrier h (Some c) ∧ key f = k) ∧
  (∀ v, GetFirstValue h (Some c) k = Ok (v, true) →
        k ≠ "" ∧ ∃ f, f ∈ carrier h (Some c) ∧ key f = k ∧ val f = v).
Proof.
  rewrite HasKey_carrier, GetFirstValue_carrier. split.
  - case_bool_decide as Hk.
    + split; [done|]. by intros [? _].
    + split.
      * intros [= Hl]. split; [done|]. by apply HasKey_loop_true.
      * intros [_ Hl]. f_equal. by apply HasKey_loop_true.
  - intros v. case_bool_decide as Hk; [done|].
    intros [= Hl]. split; [done|]. by apply GetFirstValue_loop_found.
Qed.

Section LookupsAfterMutators.

Variable growslice : nat → nat → nat.

Lemma WithValues_Some h ctx args :
  is_Some (WithValues growslice h ctx args).2.
Proof.
  unfold WithValues.
  repeat (case_bool_decide || case_match || simplify_eq); eauto.
Qed.

Lemma WithUniqueValues_Some h ctx args :
  is_Some (WithUniqueValues growslice h ctx args).2.
Proof.
  unfold WithUniqueValues.
  repeat (case_bool_decide || case_match || simplify_eq); eauto.
Qed.

Lemma kept_fields_single k v :
  k ≠ "" → kept_fields [AnyString k; v] = [ {| key := k; val := v |} ].
Proof.
  intros Hk. unfold kept_fields, kept. simpl. by rewrite bool_decide_false.
Qed.

(** X3.  [WithUniqueValues] sets what [GetFirstValue] gets: for every key
    of the batch the lookup on the new context returns the value of the
    first valid pair of the batch with that key, whatever the context
    carried for it; after [WithUniqueValues(ctx, k, v)] the key [k] yields
    [(v, true)]. *)
Theorem WithUniqueValues_then_lookup h ctx args k v pre post :
  ctx_ok h ctx → k ≠ "" →
  kept_fields args = pre ++ {| key := k; val := v |} :: post →
  Forall (λ g, key g ≠ k) pre →
  (let r := WithUniqueValues growslice h ctx args in
   GetFirstValue r.1 r.2 k = Ok (v, true) ∧ HasKey r.1 r.2 k = Ok true) ∧
  (let r := WithUniqueValues growslice h ctx [AnyString k; v] in
   GetFirstValue r.1 r.2 k = Ok (v, true) ∧ HasKey r.1 r.2 k = Ok true).
Proof.
  intros Hok Hk Hkept Hpre.
  assert (∀ args' pre' post',
            kept_fields args' = pre' ++ {| key := k; val := v |} :: post' →
            Forall (λ g, key g ≠ k) pre' →
            let r := WithUniqueValues growslice h ctx args' in
            GetFirstValue r.1 r.2 k = Ok (v, true) ∧
            HasKey r.1 r.2 k = Ok true) as Hgen.
  { intros args' pre' post' Hkept' Hpre'. cbv zeta.
    destruct (WithUniqueValues_Some h ctx args') as [c' Hc'].
    destruct (WithUniqueValues growslice h ctx args') as [h' ctx'] eqn:Hrun.
    simpl in Hc'. subst ctx'.
    destruct (WithUniqueValues_spec growslice h ctx args' h' (Some c') Hrun Hok)
      as (_ & _ & _ & Hc & _).
    cbn [fst snd]. rewrite HasKey_as_GetFirstValue.
    assert (GetFirstValue h' (Some c') k = Ok (v, true)) as ->; [|done].
    rewrite GetFirstValue_carrier, bool_decide_false by done. f_equal.
    rewrite Hc, GetFirstValue_loop_app.
    assert (HasKey_loop
              (filter (λ f, key f ∉ key <$> kept_fields args') (carrier h ctx)) k
            = false) as ->.
    { rewrite HasKey_loop_without, decide_True; [done|].
      rewrite Hkept', fmap_app, fmap_cons. simpl.
      apply elem_of_app. right. apply elem_of_cons. by left. }
    rewrite Hkept'.
    by rewrite (GetFirstValue_loop_first pre' {| key := k; val := v |} post'). }
  split; [by eapply Hgen|].
  apply (Hgen _ [] []); [by apply kept_fields_single | done].
Qed.

(** X4.  [WithValues] never overrides a lookup: a key the context already
    carries keeps the value [GetFirstValue] returned before, and only a key
    it did not carry is answered from the batch, by its first valid pair
    with that key. *)
Theorem WithValues_then_lookup h ctx args k :
  ctx_ok h ctx → k ≠ "" →
  let r := WithValues growslice h ctx args in
  (HasKey h (Some (root ctx)) k = Ok true →
   GetFirstValue r.1 r.2 k = GetFirstValue h (Some (root ctx)) k) ∧
  (HasKey h (Some (root ctx)) k = Ok false →
   (∀ v pre post,
      kept_fields args = pre ++ {| key := k; val := v |} :: post →
      Forall (λ g, key g ≠ k) pre →
      GetFirstValue r.1 r.2 k = Ok (v, true)) ∧
   (Forall (λ g, key g ≠ k) (kept_fields args) →
    GetFirstValue r.1 r.2 k = Ok (AnyNil, false))).
Proof.
  intros Hok Hk. cbv zeta.
  destruct (WithValues_Some h ctx args) as [c' Hc'].
  destruct (WithValues growslice h ctx args) as [h' ctx'] eqn:Hrun.
  simpl in Hc'. subst ctx'.
  destruct (WithValues_spec growslice h ctx args h' (Some c') Hrun Hok)
    as (_ & _ & _ & Hc & _).
  cbn [fst snd]. rewrite HasKey_carrier, !GetFirstValue_carrier.
  rewrite !bool_decide_false by done. rewrite carrier_root, Hc.
  rewrite GetFirstValue_loop_app. split.
  - by intros [= ->].
  - intros [= ->]. split.
    + intros v pre post -> Hpre.
      by rewrite (GetFirstValue_loop_first pre {| key := k; val := v |} post).
    + intros Hnone. by rewrite GetFirstValue_loop_none.
Qed.

(** X5.  After [WithoutKeys] on a non-nil context every removed key is
    absent for [GetFirstValue] and [HasKey], and every other key is
    answered as before. *)
Theorem WithoutKeys_then_lookup h c keys k :
  ctx_ok h (Some c) →
  let r := WithoutKeys growslice h (Some c) keys in
  (k ∈ keys → GetFirstValue r.1 r.2 k = Ok (AnyNil, false) ∧
              HasKey r.1 r.2 k = Ok false) ∧
  (k ∉ keys → GetFirstValue r.1 r.2 k = GetFirstValue h (Some c) k ∧
              HasKey r.1 r.2 k = HasKey h (Some c) k).
Proof.
  intros Hok. cbv zeta.
  destruct (WithoutKeys_Some growslice h c keys) as [c' Hc'].
  destruct (WithoutKeys growslice h (Some c) keys) as [h' ctx'] eqn:Hrun.
  simpl in Hc'. subst ctx'.
  destruct (WithoutKeys_spec growslice h (Some c) keys h' (Some c') Hrun Hok)
    as (_ & _ & _ & Hc & _).
  cbn [fst snd]. rewrite !HasKey_as_GetFirstValue.
  rewrite !GetFirstValue_carrier, Hc.
  rewrite GetFirstValue_loop_without.
  split; intros Hin.
  - rewrite decide_True by done. by case_bool_decide.
  - by rewrite decide_False.
Qed.

End LookupsAfterMutators.

Lemma WithUniqueValues_then_lookup_witness :
  ctx_ok sample_heap (Some sample_ctx) ∧
  (let r := WithUniqueValues double_cap sample_heap (Some sample_ctx)
              [AnyString "req"; AnyInt 9] in
   GetFirstValue r.1 r.2 "req" = Ok (AnyInt 9, true)).
Proof.
  split; [exact I|].
  exact (proj1 (proj2 (WithUniqueValues_then_lookup double_cap sample_heap
                         (Some sample_ctx) [AnyString "req"; AnyInt 9]
                         "req" (AnyInt 9) [] [] I ltac:(done) eq_refl
                         ltac:(constructor)))).
Defined.

Lemma WithValues_then_lookup_witness :
  ctx_ok sample_heap (Some sample_ctx) ∧ "req" ≠ "" ∧
  (let r := WithValues double_cap sample_heap (Some sample_ctx)
              [AnyString "req"; AnyInt 9] in
   GetFirstValue r.1 r.2 "req" = Ok (AnyString "abc", true)).
Proof.
  split; [exact I|]. split; [done|].
  exact (proj1 (WithValues_then_lookup double_cap sample_heap (Some sample_ctx)
                  [AnyString "req"; AnyInt 9] "req" I ltac:(done)) eq_refl).
Defined.

Lemma WithoutKeys_then_lookup_witness :
  ctx_ok sample_heap (Some sample_ctx) ∧
  (let r := WithoutKeys double_cap sample_heap (Some sample_ctx) ["req"] in
   HasKey r.1 r.2 "req" = Ok false ∧
   GetFirstValue r.1 r.2 "user" = Ok (AnyString "Jan", true)).
Proof.
  split; [exact I|].
  pose proof (WithoutKeys_then_lookup double_cap sample_heap sample_ctx ["req"] "req" I)
    as [Hin _].
  pose proof (WithoutKeys_then_lookup double_cap sample_heap sample_ctx ["req"] "user" I)
    as [_ Hout].
  split.
  - apply Hin. apply elem_of_cons. by left.
  - apply Hout. intros Hu.
    apply elem_of_cons in Hu as [Hu|Hu]; [discriminate|].
    by apply elem_of_nil in Hu.
Defined.

(** ** Carriers under composed calls *)

Lemma kept_fields_nonempty args : Forall (λ f, key f ≠ "") (kept_fields args).
Proof.
  apply Forall_forall. intros f Hf. unfold kept_fields in Hf.
  apply list_elem_of_omap in Hf as ([k v] & _ & Hkv).
  unfold kept in Hkv. simpl in Hkv. destruct k; try done.
  case_bool_decide; [done|]. by injection Hkv as <-.
Qed.

Lemma pairs_app args args' :
  Nat.Even (length args) → pairs (args ++ args') = pairs args ++ pairs args'.
Proof.
  intros [m Hm]. revert args Hm.
  induction m as [|m IH]; intros args Hm.
  - by destruct args.
  - destruct args as [|k [|v args]]; simpl in *; try lia.
    rewrite IH; [done | lia].
Qed.

Lemma kept_fields_app args args' :
  Nat.Even (length args) →
  kept_fields (args ++ args') = kept_fields args ++ kept_fields args'.
Proof.
  intros Heven. unfold kept_fields. by rewrite pairs_app, omap_app.
Qed.

Lemma Forall_filter_keep {A : Type} (P Q : A → Prop) `{!∀ x, Decision (P x)}
    (l : list A) :
  Forall Q l → Forall Q (filter P l).
Proof.
  intros Hl. apply Forall_forall. intros x Hx.
  apply list_elem_of_filter in Hx as [_ Hx].
  by eapply Forall_forall in Hl.
Qed.

Lemma filter_Forall_id {A : Type} (P : A → Prop) `{!∀ x, Decision (P x)}
    (l : list A) :
  Forall P l → filter P l = l.
Proof.
  induction 1 as [|x l Hx _ IH]; [done|]. by rewrite filter_cons_True, IH.
Qed.

Section Composition.

Variable growslice : nat → nat → nat.

(** What one call does to the carrier. *)
Lemma apply_call_carrier cl h ctx h' ctx' :
  apply_call growslice cl (h, ctx) = Ok (h', ctx') →
  ctx_ok h ctx →
  carrier h' ctx'
  = match cl with
    | CallWithValues args => carrier h ctx ++ kept_fields args
    | CallWithUniqueValues args =>
        filter (λ f, key f ∉ key <$> kept_fields args) (carrier h ctx)
        ++ kept_fields args
    | CallWithoutKeys keys => filter (λ f, key f ∉ keys) (carrier h ctx)
    | CallWithoutAllKeys => []
    end.
Proof.
  intros Hrun Hok. destruct cl as [args|args|keys|]; simpl in Hrun.
  - injection Hrun as Hrun.
    by destruct (WithValues_spec growslice h ctx args h' ctx' Hrun Hok)
      as (_ & _ & _ & ? & _).
  - injection Hrun as Hrun.
    by destruct (WithUniqueValues_spec growslice h ctx args h' ctx' Hrun Hok)
      as (_ & _ & _ & ? & _).
  - injection Hrun as Hrun.
    by destruct (WithoutKeys_spec growslice h ctx keys h' ctx' Hrun Hok)
      as (_ & _ & _ & ? & _).
  - destruct ctx as [c|]; [|done]. simpl in Hrun. by injection Hrun as <- <-.
Qed.

(** X6.  No field with an empty key is ever stored: along every chain of
    mutator calls, from a context whose fields have non-empty keys and so
    from the nil context on the empty heap, every carried field has a
    non-empty key. *)
Theorem stored_keys_never_empty (cs : list call) h ctx h' ctx' :
  ctx_ok h ctx →
  Forall (λ f, key f ≠ "") (carrier h ctx) →
  derive growslice cs (h, ctx) = Ok (h', ctx') →
  Forall (λ f, key f ≠ "") (carrier h' ctx').
Proof.
  revert h ctx. induction cs as [|cl cs IH]; intros h ctx Hok Hkeys Hd;
    simpl in Hd.
  - by injection Hd as <- <-.
  - destruct (apply_call growslice cl (h, ctx)) as [[h1 ctx1]|] eqn:Hcl;
      [|done].
    destruct (apply_call_spec growslice cl h ctx h1 ctx1 Hcl Hok)
      as (_ & _ & Hok1).
    apply (IH h1 ctx1 Hok1); [|done].
    rewrite (apply_call_carrier cl h ctx h1 ctx1 Hcl Hok).
    destruct cl as [args|args|keys|].
    + apply Forall_app. split; [done | apply kept_fields_nonempty].
    + apply Forall_app. split; [|apply kept_fields_nonempty].
      by apply Forall_filter_keep.
    + by apply Forall_filter_keep.
    + constructor.
Qed.

(** X7.  [WithUniqueValues] is idempotent on the carrier: giving it the
    same arguments a second time changes no field and no position. *)
Theorem WithUniqueValues_idempotent h ctx args :
  ctx_ok h ctx →
  let r1 := WithUniqueValues growslice h ctx args in
  let r2 := WithUniqueValues growslice r1.1 r1.2 args in
  carrier r2.1 r2.2 = carrier r1.1 r1.2.
Proof.
  intros Hok. cbv zeta.
  destruct (WithUniqueValues growslice h ctx args) as [h1 ctx1] eqn:Hrun1.
  destruct (WithUniqueValues_spec growslice h ctx args h1 ctx1 Hrun1 Hok)
    as (_ & _ & Hok1 & Hc1 & _).
  cbn [fst snd].
  destruct (WithUniqueValues growslice h1 ctx1 args) as [h2 ctx2] eqn:Hrun2.
  destruct (WithUniqueValues_spec growslice h1 ctx1 args h2 ctx2 Hrun2 Hok1)
    as (_ & _ & _ & Hc2 & _).
  cbn [fst snd]. rewrite Hc2, Hc1, filter_app, filter_own_keys, app_nil_r.
  f_equal. rewrite list_filter_filter. apply list_filter_iff. tauto.
Qed.

(** X8.  [WithoutKeys] composes by joining the key lists: removing [keys1]
    and then [keys2] leaves the carrier that removing [keys1 ++ keys2] at
    once leaves, in whichever order the two removals are made. *)
Theorem WithoutKeys_composes h ctx keys1 keys2 :
  ctx_ok h ctx →
  let r1 := WithoutKeys growslice h ctx keys1 in
  let r12 := WithoutKeys growslice r1.1 r1.2 keys2 in
  let r2 := WithoutKeys growslice h ctx keys2 in
  let r21 := WithoutKeys growslice r2.1 r2.2 keys1 in
  let r := WithoutKeys growslice h ctx (keys1 ++ keys2) in
  carrier r12.1 r12.2 = carrier r.1 r.2 ∧
  carrier r21.1 r21.2 = carrier r.1 r.2.
Proof.
  intros Hok. cbv zeta.
  assert (∀ ks1 ks2,
            let r1 := WithoutKeys growslice h ctx ks1 in
            let r12 := WithoutKeys growslice r1.1 r1.2 ks2 in
            carrier r12.1 r12.2
            = filter (λ f, (key f ∉ ks1) ∧ (key f ∉ ks2)) (carrier h ctx)) as Hseq.
  { intros ks1 ks2. cbv zeta.
    destruct (WithoutKeys growslice h ctx ks1) as [h1 ctx1] eqn:Hrun1.
    destruct (WithoutKeys_spec growslice h ctx ks1 h1 ctx1 Hrun1 Hok)
      as (_ & _ & Hok1 & Hc1 & _).
    cbn [fst snd].
    destruct (WithoutKeys growslice h1 ctx1 ks2) as [h2 ctx2] eqn:Hrun2.
    destruct (WithoutKeys_spec growslice h1 ctx1 ks2 h2 ctx2 Hrun2 Hok1)
      as (_ & _ & _ & Hc2 & _).
    cbn [fst snd]. rewrite Hc2, Hc1, list_filter_filter.
    apply list_filter_iff. tauto. }
  destruct (WithoutKeys growslice h ctx (keys1 ++ keys2)) as [h' ctx'] eqn:Hrun.
  destruct (WithoutKeys_spec growslice h ctx _ h' ctx' Hrun Hok)
    as (_ & _ & _ & Hc & _).
  cbn [fst snd]. rewrite Hc. split.
  - rewrite (Hseq keys1 keys2). apply list_filter_iff. intros f.
    rewrite elem_of_app. tauto.
  - rewrite (Hseq keys2 keys1). apply list_filter_iff. intros f.
    rewrite elem_of_app. tauto.
Qed.

(** X9.  [WithValues] composes by joining the argument lists: two calls in
    a row, the first with an even number of arguments, carry what one call
    with the joined arguments carries. *)
Theorem WithValues_composes h ctx args1 args2 :
  ctx_ok h ctx → Nat.Even (length args1) →
  let r1 := WithValues growslice h ctx args1 in
  let r12 := WithValues growslice r1.1 r1.2 args2 in
  let r := WithValues growslice h ctx (args1 ++ args2) in
  carrier r12.1 r12.2 = carrier r.1 r.2.
Proof.
  intros Hok Heven. cbv zeta.
  destruct (WithValues growslice h ctx args1) as [h1 ctx1] eqn:Hrun1.
  destruct (WithValues_spec growslice h ctx args1 h1 ctx1 Hrun1 Hok)
    as (_ & _ & Hok1 & Hc1 & _).
  cbn [fst snd].
  destruct (WithValues growslice h1 ctx1 args2) as [h2 ctx2] eqn:Hrun2.
  destruct (WithValues_spec growslice h1 ctx1 args2 h2 ctx2 Hrun2 Hok1)
    as (_ & _ & _ & Hc2 & _).
  destruct (WithValues growslice h ctx (args1 ++ args2)) as [h' ctx'] eqn:Hrun.
  destruct (WithValues_spec growslice h ctx _ h' ctx' Hrun Hok)
    as (_ & _ & _ & Hc & _).
  cbn [fst snd].
  by rewrite Hc2, Hc1, Hc, kept_fields_app, app_assoc.
Qed.

(** X10.  When no key of the batch is carried yet, [WithUniqueValues]
    carries exactly what [WithValues] carries. *)
Theorem WithUniqueValues_as_WithValues h ctx args :
  ctx_ok h ctx →
  Forall (λ f, key f ∉ key <$> kept_fields args) (carrier h ctx) →
  let u := WithUniqueValues growslice h ctx args in
  let w := WithValues growslice h ctx args in
  carrier u.1 u.2 = carrier w.1 w.2.
Proof.
  intros Hok Hfresh. cbv zeta.
  destruct (WithUniqueValues growslice h ctx args) as [h1 ctx1] eqn:Hrun1.
  destruct (WithUniqueValues_spec growslice h ctx args h1 ctx1 Hrun1 Hok)
    as (_ & _ & _ & Hc1 & _).
  destruct (WithValues growslice h ctx args) as [h2 ctx2] eqn:Hrun2.
  destruct (WithValues_spec growslice h ctx args h2 ctx2 Hrun2 Hok)
    as (_ & _ & _ & Hc2 & _).
  cbn [fst snd]. rewrite Hc1, Hc2. f_equal. by apply filter_Forall_id.
Qed.

End Composition.

Lemma stored_keys_never_empty_witness :
  ctx_ok [] None ∧ Forall (λ f, key f ≠ "") (carrier [] None) ∧
  ∃ h' ctx',
    derive double_cap
      [CallWithValues [AnyString ""; AnyInt 1; AnyString "a"; AnyInt 2];
       CallWithUniqueValues [AnyString "a"; AnyInt 3; AnyString ""; AnyInt 4];
       CallWithoutKeys [""]] ([], None) = Ok (h', ctx') ∧
    Forall (λ f, key f ≠ "") (carrier h' ctx').
Proof.
  split; [exact I|]. split; [constructor|]. eexists _, _.
  split; [vm_compute; reflexivity|].
  refine (stored_keys_never_empty double_cap
            [CallWithValues [AnyString ""; AnyInt 1; AnyString "a"; AnyInt 2];
             CallWithUniqueValues [AnyString "a"; AnyInt 3; AnyString ""; AnyInt 4];
             CallWithoutKeys [""]] [] None _ _ I ltac:(constructor) _).
  vm_compute. reflexivity.
Defined.

Lemma WithUniqueValues_idempotent_witness :
  ctx_ok sample_heap (Some sample_ctx) ∧
  (let r1 := WithUniqueValues double_cap sample_heap (Some sample_ctx)
               [AnyString "req"; AnyInt 1; AnyString "req"; AnyInt 2] in
   let r2 := WithUniqueValues double_cap r1.1 r1.2
               [AnyString "req"; AnyInt 1; AnyString "req"; AnyInt 2] in
   carrier r2.1 r2.2 = carrier r1.1 r1.2).
Proof.
  split; [exact I|].
  exact (WithUniqueValues_idempotent double_cap sample_heap (Some sample_ctx)
           [AnyString "req"; AnyInt 1; AnyString "req"; AnyInt 2] I).
Defined.

Lemma WithoutKeys_composes_witness :
  ctx_ok sample_heap (Some sample_ctx) ∧
  (let r1 := WithoutKeys double_cap sample_heap (Some sample_ctx) ["req"] in
   let r12 := WithoutKeys double_cap r1.1 r1.2 ["user"] in
   let r := WithoutKeys double_cap sample_heap (Some sample_ctx)
              ["req"; "user"] in
   carrier r12.1 r12.2 = carrier r.1 r.2).
Proof.
  split; [exact I|].
  exact (proj1 (WithoutKeys_composes double_cap sample_heap (Some sample_ctx)
                  ["req"] ["user"] I)).
Defined.

Lemma WithValues_composes_witness :
  ctx_ok sample_heap (Some sample_ctx) ∧ Nat.Even (length [AnyString "a"; AnyInt 1]) ∧
  (let r1 := WithValues double_cap sample_heap (Some sample_ctx)
               [AnyString "a"; AnyInt 1] in
   let r12 := WithValues double_cap r1.1 r1.2 [AnyString "b"; AnyInt 2] in
   let r := WithValues double_cap sample_heap (Some sample_ctx)
              [AnyString "a"; AnyInt 1; AnyString "b"; AnyInt 2] in
   carrier r12.1 r12.2 = carrier r.1 r.2).
Proof.
  split; [exact I|]. split; [by exists 1|].
  exact (WithValues_composes double_cap sample_heap (Some sample_ctx)
           [AnyString "a"; AnyInt 1] [AnyString "b"; AnyInt 2] I
           (ex_intro _ 1 eq_refl)).
Defined.

Lemma WithUniqueValues_as_WithValues_witness :
  ctx_ok sample_heap (Some sample_ctx) ∧
  (let u := WithUniqueValues double_cap sample_heap (Some sample_ctx)
              [AnyString "id"; AnyInt 1] in
   let w := WithValues double_cap sample_heap (Some sample_ctx)
              [AnyString "id"; AnyInt 1] in
   carrier u.1 u.2 = carrier w.1 w.2).
Proof.
  split; [exact I|].
  apply (WithUniqueValues_as_WithValues double_cap sample_heap
           (Some sample_ctx) [AnyString "id"; AnyInt 1] I).
  repeat constructor; intros Hin;
    apply elem_of_cons in Hin as [Hin|Hin];
    try discriminate; by apply elem_of_nil in Hin.
Defined.

(** ** Preallocation *)

Lemma pairs_length args : length (pairs args) = length args `div` 2.
Proof.
  assert (∀ m args, length args ≤ 2 * m + 1 →
                    length (pairs args) = length args `div` 2) as Haux.
  { induction m as [|m IH]; intros l Hl.
    - by destruct l as [|? [|? ?]]; simpl in *; try lia.
    - destruct l as [|k [|v l]]; [done | done |]. simpl length.
      rewrite IH by (simpl in Hl; lia).
      change (S (S (length l))) with (1 * 2 + length l).
      rewrite Nat.div_add_l by done. lia. }
  apply (Haux (length args)). lia.
Qed.

Section Preallocation.

Variables growslice growslice' : nat → nat → nat.

(** An [append] that fits the capacity does not consult the growth policy
    and allocates nothing. *)
Lemma append_fits h s xs p :
  ptr s = Some p → len s + length xs ≤ cap s →
  append growslice h s xs = append growslice' h s xs ∧
  length (append growslice h s xs).1 = length h ∧
  ptr (append growslice h s xs).2 = Some p ∧
  cap (append growslice h s xs).2 = cap s ∧
  len (append growslice h s xs).2 = len s + length xs.
Proof.
  intros Hp Hfit. unfold append. rewrite !bool_decide_true by done.
  rewrite Hp. simpl. by rewrite length_alter.
Qed.

Lemma range_keep_fits ks src (idx : list nat) :
  ∀ h dst p,
    ptr dst = Some p → len dst + length idx ≤ cap dst →
    let r := foldl (λ st i, keep_body growslice ks st (index st.1 src i))
               (h, dst) idx in
    r = foldl (λ st i, keep_body growslice' ks st (index st.1 src i))
          (h, dst) idx ∧
    length r.1 = length h ∧ ptr r.2 = Some p ∧ cap r.2 = cap dst ∧
    len r.2 ≤ len dst + length idx.
Proof.
  induction idx as [|i idx IH]; intros h dst p Hp Hfit; simpl.
  - repeat split; [done | lia].
  - simpl in Hfit. unfold keep_body at 2 4. case_bool_decide.
    + destruct (IH h dst p Hp ltac:(lia)) as (? & ? & ? & ? & ?).
      repeat split; [done | done | done | done | lia].
    + destruct (append_fits h dst [index h src i] p Hp ltac:(simpl; lia))
        as (Heq & Hlen & Hp1 & Hcap & Hl).
      rewrite <- Heq.
      destruct (append growslice h dst [index h src i]) as [h1 d1].
      simpl in *.
      destruct (IH h1 d1 p Hp1 ltac:(lia)) as (? & ? & ? & ? & ?).
      repeat split; [done | lia | done | lia | lia].
Qed.

Lemma collect_fits (kvs : list (any * any)) :
  ∀ h nf p,
    ptr nf = Some p → len nf + length kvs ≤ cap nf →
    let r := foldl (λ st kv, collect_step growslice kv.1 kv.2 st) (h, nf) kvs in
    r = foldl (λ st kv, collect_step growslice' kv.1 kv.2 st) (h, nf) kvs ∧
    length r.1 = length h ∧ ptr r.2 = Some p ∧ cap r.2 = cap nf ∧
    len r.2 ≤ len nf + length kvs.
Proof.
  induction kvs as [|[k v] kvs IH]; intros h nf p Hp Hfit; simpl.
  - repeat split; [done | lia].
  - simpl in Hfit.
    assert (collect_step growslice k v (h, nf) = (h, nf) ∧
            collect_step growslice' k v (h, nf) = (h, nf) ∨
            ∃ f, collect_step growslice k v (h, nf) = append growslice h nf [f] ∧
                 collect_step growslice' k v (h, nf) = append growslice' h nf [f])
      as [[-> ->]|(f & -> & ->)].
    { unfold collect_step. destruct k; try by left.
      case_bool_decide; [by left|]. right. by eexists. }
    + destruct (IH h nf p Hp ltac:(lia)) as (? & ? & ? & ? & ?).
      repeat split; [done | done | done | done | lia].
    + destruct (append_fits h nf [f] p Hp ltac:(simpl; lia))
        as (Heq & Hlen & Hp1 & Hcap & Hl).
      rewrite <- Heq.
      destruct (append growslice h nf [f]) as [h1 d1]. simpl in *.
      destruct (IH h1 d1 p Hp1 ltac:(lia)) as (? & ? & ? & ? & ?).
      repeat split; [done | lia | done | lia | lia].
Qed.

End Preallocation.

Section PreallocationSuffices.

Variables growslice growslice' : nat → nat → nat.

Lemma rounded_half (args : list any) :
  (if bool_decide (length args `mod` 2 ≠ 0)
   then length args - 1 else length args) `div` 2
  = length (pairs args).
Proof.
  rewrite pairs_length.
  pose proof (Nat.div_mod_eq (length args) 2) as Hdm.
  pose proof (Nat.mod_upper_bound (length args) 2) as Hub.
  case_bool_decide as Hodd; [|done].
  replace (length args - 1) with (length args `div` 2 * 2) by lia.
  by rewrite Nat.div_mul.
Qed.

Lemma WithUniqueValues_fits h ctx args :
  WithUniqueValues growslice h ctx args = WithUniqueValues growslice' h ctx args ∧
  length (WithUniqueValues growslice h ctx args).1 ≤ length h + 2.
Proof.
  unfold WithUniqueValues.
  set (c := match ctx with None => Background | Some c => c end).
  set (n := if bool_decide (length args `mod` 2 ≠ 0)
            then length args - 1 else length args).
  case_bool_decide as Hn0; [split; [done | simpl; lia]|].
  cbn [make].
  rewrite (for_pairs_pairs args (collect_unique_step growslice)) by body_agrees.
  rewrite (for_pairs_pairs args (collect_unique_step growslice')) by body_agrees.
  set (st0 := (h ++ [replicate (n `div` 2) zero_field],
               {| ptr := Some (length h); len := 0; cap := n `div` 2 |},
               (∅ : gset string))).
  destruct (collect_unique_spec growslice (pairs args) st0) as [Hf Hs].
  destruct (collect_unique_spec growslice' (pairs args) st0) as [Hf' Hs'].
  destruct (collect_fits growslice growslice' (pairs args) st0.1.1 st0.1.2
              (length h) eq_refl) as (Heq & Hlen & Hp & Hcap & Hl).
  { change (0 + length (pairs args) ≤ n `div` 2).
    subst n. rewrite rounded_half. lia. }
  cbv zeta in Heq, Hlen, Hp, Hcap, Hl.
  change (st0.1.1, st0.1.2) with st0.1 in *.
  rewrite <- Heq in Hf'. rewrite <- Hf in *. rewrite <- Hs in Hs'.
  destruct (foldl _ st0 (pairs args)) as [[h1 newFields] replaceSet] eqn:E.
  destruct (foldl (λ st kv, collect_unique_step growslice' kv.1 kv.2 st) st0
              (pairs args)) as [[h1' newFields'] replaceSet'] eqn:E'.
  simpl in *. injection Hf' as -> ->. subst replaceSet'.
  assert (length h1 = S (length h)) as Hlen1
    by (rewrite Hlen, length_app; simpl; lia).
  case_bool_decide; [split; [done | simpl; lia]|].
  set (existing := match as_fieldsData (Value c contextKeyFields) with
                   | Some p => if bool_decide (0 < len (slice p))
                               then slice p else nil_slice
                   | None => nil_slice
                   end).
  cbn [make].
  set (h2 := h1 ++ [replicate (len existing + len newFields) zero_field]).
  set (result0 := {| ptr := Some (length h1); len := 0;
                     cap := len existing + len newFields |}).
  destruct (range_keep_fits growslice growslice' replaceSet existing
              (seq 0 (len existing)) h2 result0 (length h1) eq_refl)
    as (Heq2 & Hlen2 & Hp2 & Hcap2 & Hl2).
  { simpl. rewrite length_seq. lia. }
  cbv zeta in Heq2, Hlen2, Hp2, Hcap2, Hl2. rewrite length_seq in Hl2.
  unfold range. unfold keep_body in Heq2, Hlen2, Hp2, Hcap2, Hl2.
  rewrite <- Heq2.
  destruct (foldl _ (h2, result0) (seq 0 (len existing))) as [h3 result].
  simpl in *.
  destruct (append_fits growslice growslice' h3 result (elems h3 newFields)
              (length h1) Hp2) as (Heq3 & Hlen3 & _).
  { rewrite Hcap2. unfold elems. rewrite length_take. lia. }
  rewrite <- Heq3.
  destruct (append growslice h3 result (elems h3 newFields)) as [h4 combined].
  simpl in *. split; [done|].
  rewrite Hlen3, Hlen2. subst h2. rewrite length_app. simpl. lia.
Qed.

Lemma WithoutKeys_fits h ctx keys :
  WithoutKeys growslice h ctx keys = WithoutKeys growslice' h ctx keys ∧
  length (WithoutKeys growslice h ctx keys).1 ≤ length h + 1.
Proof.
  unfold WithoutKeys. destruct ctx as [c|]; [|split; [done | simpl; lia]].
  case_bool_decide; [split; [done | simpl; lia]|].
  destruct (as_fieldsData (Value c contextKeyFields)) as [p|];
    [|split; [done | simpl; lia]].
  case_bool_decide; [split; [done | simpl; lia]|].
  cbn [make].
  set (keySet := foldl (λ keySet k, {[ k ]} ∪ keySet) (∅ : gset string) keys).
  set (h1 := h ++ [replicate (len (slice p)) zero_field]).
  set (result0 := {| ptr := Some (length h); len := 0; cap := len (slice p) |}).
  destruct (range_keep_fits growslice growslice' keySet (slice p)
              (seq 0 (len (slice p))) h1 result0 (length h) eq_refl)
    as (Heq & Hlen & _).
  { simpl. rewrite length_seq. lia. }
  cbv zeta in Heq, Hlen. unfold range. unfold keep_body in Heq, Hlen.
  rewrite <- Heq.
  destruct (foldl _ (h1, result0) (seq 0 (len (slice p)))) as [h2 result].
  simpl in *. split; [done|].
  assert (length h2 ≤ length h + 1) as Hle
    by (rewrite Hlen; subst h1; rewrite length_app; simpl; lia).
  by case_bool_decide.
Qed.

End PreallocationSuffices.

(** X11.  The capacity [WithUniqueValues] and [WithoutKeys] set aside is
    always enough: no [append] in them has to grow its slice, so their
    outcome, heap and context, is the same under every growth policy of the
    runtime, and they allocate at most two arrays and one array. *)
Theorem preallocation_suffices growslice growslice' h ctx args keys :
  WithUniqueValues growslice h ctx args
    = WithUniqueValues growslice' h ctx args ∧
  length (WithUniqueValues growslice h ctx args).1 ≤ length h + 2 ∧
  WithoutKeys growslice h ctx keys = WithoutKeys growslice' h ctx keys ∧
  length (WithoutKeys growslice h ctx keys).1 ≤ length h + 1.
Proof.
  destruct (WithUniqueValues_fits growslice growslice' h ctx args) as [? ?].
  destruct (WithoutKeys_fits growslice growslice' h ctx keys) as [? ?].
  done.
Qed.

(** ** Shape of the contexts the mutators return *)

Section Shapes.

Variable growslice : nat → nat → nat.

Lemma rebinds_Value c c' k :
  rebinds c c' → k ≠ contextKeyFields → Value c' k = Value c k.
Proof.
  intros [->|[->|[p ->]]] Hk; [done | |]; simpl; by rewrite decide_False.
Qed.

Lemma WithValues_rebinds h ctx args :
  ∃ c', (WithValues growslice h ctx args).2 = Some c' ∧ rebinds (root ctx) c'.
Proof.
  unfold WithValues, rebinds. fold (root ctx).
  repeat (case_bool_decide || case_match || simplify_eq); eauto 6.
Qed.

Lemma WithUniqueValues_rebinds h ctx args :
  ∃ c', (WithUniqueValues growslice h ctx args).2 = Some c' ∧
        rebinds (root ctx) c'.
Proof.
  unfold WithUniqueValues, rebinds. fold (root ctx).
  repeat (case_bool_decide || case_match || simplify_eq); eauto 6.
Qed.

Lemma WithoutKeys_rebinds h c keys :
  ∃ c', (WithoutKeys growslice h (Some c) keys).2 = Some c' ∧
        (c' = c ∨ c' = WithValue c contextKeyFields VNil ∨
         ∃ p, c' = WithValue c contextKeyFields (VFieldsData p) ∧
              len (slice p) ≠ 0).
Proof.
  unfold WithoutKeys.
  repeat (case_bool_decide || case_match || simplify_eq); eauto 7.
Qed.

Lemma apply_call_rebinds cl h c h' ctx' :
  apply_call growslice cl (h, Some c) = Ok (h', ctx') →
  ∃ c', ctx' = Some c' ∧ rebinds c c'.
Proof.
  destruct cl as [args|args|keys|]; cbn [apply_call fst snd].
  - destruct (WithValues_rebinds h (Some c) args) as (c' & Hc' & ?).
    destruct (WithValues growslice h (Some c) args) as [h1 ctx1].
    intros [= <- <-]. by exists c'.
  - destruct (WithUniqueValues_rebinds h (Some c) args) as (c' & Hc' & ?).
    destruct (WithUniqueValues growslice h (Some c) args) as [h1 ctx1].
    intros [= <- <-]. by exists c'.
  - destruct (WithoutKeys_rebinds h c keys) as (c' & Hc' & Hshape).
    destruct (WithoutKeys growslice h (Some c) keys) as [h1 ctx1].
    intros [= <- <-]. exists c'. split; [done|].
    unfold rebinds. destruct Hshape as [->|[->|(p & -> & _)]]; eauto.
  - simpl. intros [= <- <-]. eexists. split; [done|]. right. by left.
Qed.

(** X12.  The mutators touch no binding but their own: along every chain
    of calls on a non-nil context the value bound under any other key is
    the one bound at the start, and binding another key on top of a
    context changes nothing of what it carries. *)
Theorem foreign_bindings_untouched (cs : list call) h c h' ctx' k :
  k ≠ contextKeyFields →
  derive growslice cs (h, Some c) = Ok (h', ctx') →
  (∃ c', ctx' = Some c' ∧ Value c' k = Value c k) ∧
  (∀ v, carrier h (Some (WithValue c k v)) = carrier h (Some c) ∧
        ∀ k', GetFirstValue h (Some (WithValue c k v)) k'
              = GetFirstValue h (Some c) k').
Proof.
  intros Hk Hd. split.
  - revert h c Hd. induction cs as [|cl cs IH]; intros h c Hd; simpl in Hd.
    + injection Hd as <- <-. by exists c.
    + destruct (apply_call growslice cl (h, Some c)) as [[h1 ctx1]|] eqn:Hcl;
        [|done].
      destruct (apply_call_rebinds cl h c h1 ctx1 Hcl) as (c1 & -> & Hre).
      destruct (IH h1 c1 Hd) as (c' & -> & Hv).
      exists c'. split; [done|]. rewrite Hv. by apply rebinds_Value.
  - intros v.
    assert (bound (Some (WithValue c k v)) = bound (Some c)) as Hb
      by (simpl; by rewrite decide_False).
    split.
    + unfold carrier. by rewrite Hb.
    + intros k'. unfold GetFirstValue. simpl in Hb. simpl Value.
      rewrite decide_False by done. done.
Qed.

(** X13.  An empty carrier is never bound: along every chain of calls from
    a well-formed context that binds no empty slice, and so from the nil
    context on the empty heap, the slice bound under [contextKeyFields]
    holds at least one field. *)
Theorem bound_slice_never_empty (cs : list call) h ctx h' ctx' :
  ctx_ok h ctx →
  (∀ p, bound ctx = Some p → 0 < len (slice p)) →
  derive growslice cs (h, ctx) = Ok (h', ctx') →
  ∀ p, bound ctx' = Some p → 0 < len (slice p).
Proof.
  revert h ctx. induction cs as [|cl cs IH]; intros h ctx Hok Hne Hd;
    simpl in Hd.
  - by injection Hd as <- <-.
  - destruct (apply_call growslice cl (h, ctx)) as [[h1 ctx1]|] eqn:Hcl;
      [|done].
    destruct (apply_call_spec growslice cl h ctx h1 ctx1 Hcl Hok)
      as (_ & _ & Hok1).
    apply (IH h1 ctx1 Hok1); [|done]. clear IH Hd.
    pose proof (apply_call_carrier growslice cl h ctx h1 ctx1 Hcl Hok) as Hc.
    assert (∀ p, bound ctx1 = Some p → carrier h1 ctx1 ≠ [] →
                 0 < len (slice p)) as Hlen.
    { intros p Hb Hcne. unfold carrier, ctx_ok in *. rewrite Hb in *.
      pose proof (length_elems h1 (slice p) Hok1) as Hl.
      destruct (elems h1 (slice p)); [done|]. simpl in Hl. lia. }
    destruct cl as [args|args|keys|]; simpl in Hcl.
    + injection Hcl as Hrun.
      destruct (WithValues_spec growslice h ctx args h1 ctx1 Hrun Hok)
        as (_ & _ & _ & _ & Hnoop & _).
      destruct (kept_fields args) as [|f fs] eqn:Hk.
      * rewrite (Hnoop eq_refl), bound_root. exact Hne.
      * intros p Hb. apply Hlen; [done|]. rewrite Hc.
        by destruct (carrier h ctx).
    + injection Hcl as Hrun.
      destruct (WithUniqueValues_spec growslice h ctx args h1 ctx1 Hrun Hok)
        as (_ & _ & _ & _ & Hnoop & _).
      destruct (kept_fields args) as [|f fs] eqn:Hk.
      * rewrite (Hnoop eq_refl), bound_root. exact Hne.
      * intros p Hb. apply Hlen; [done|]. rewrite Hc.
        by destruct (filter _ (carrier h ctx)).
    + injection Hcl as Hrun. destruct ctx as [c|].
      * destruct (WithoutKeys_rebinds h c keys) as (c' & Hc' & Hshape).
        rewrite Hrun in Hc'. simpl in Hc'. subst ctx1.
        destruct Hshape as [->|[->|(p' & -> & Hp')]]; [exact Hne | done |].
        intros p [= <-]. lia.
      * simpl in Hrun. by injection Hrun as <- <-.
    + destruct ctx as [c|]; [|done]. simpl in Hcl. by injection Hcl as <- <-.
Qed.

End Shapes.

Lemma foreign_bindings_untouched_witness :
  otherKey 7 ≠ contextKeyFields ∧
  ∃ h' c',
    derive double_cap
      [CallWithValues [AnyString "a"; AnyInt 1]; CallWithoutKeys ["req"];
       CallWithoutAllKeys]
      (sample_heap, Some (WithValue sample_ctx (otherKey 7) (VAny (AnyInt 5))))
    = Ok (h', Some c') ∧
    Value c' (otherKey 7) = VAny (AnyInt 5).
Proof.
  split; [done|]. eexists _, _. split; [vm_compute; reflexivity|].
  destruct (proj1 (foreign_bindings_untouched double_cap
              [CallWithValues [AnyString "a"; AnyInt 1]; CallWithoutKeys ["req"];
               CallWithoutAllKeys]
              sample_heap
              (WithValue sample_ctx (otherKey 7) (VAny (AnyInt 5)))
              _ _ (otherKey 7) ltac:(done) ltac:(vm_compute; reflexivity)))
    as (c' & [= <-] & Hv).
  exact Hv.
Defined.

Lemma bound_slice_never_empty_witness :
  ctx_ok [] None ∧ (∀ p, bound None = Some p → 0 < len (slice p)) ∧
  ∃ h' ctx',
    derive double_cap
      [CallWithValues [AnyString "a"; AnyInt 1];
       CallWithUniqueValues [AnyString "b"; AnyInt 2];
       CallWithoutKeys ["a"]] ([], None) = Ok (h', ctx') ∧
    ∀ p, bound ctx' = Some p → 0 < len (slice p).
Proof.
  split; [exact I|]. split; [done|]. eexists _, _.
  split; [vm_compute; reflexivity|].
  refine (bound_slice_never_empty double_cap
            [CallWithValues [AnyString "a"; AnyInt 1];
             CallWithUniqueValues [AnyString "b"; AnyInt 2];
             CallWithoutKeys ["a"]] [] None _ _ I ltac:(done) _).
  vm_compute. reflexivity.
Defined.

(** ** Scoping calls, nested decorators and the in-memory sink *)








(** ** The logger of the older package *)

(** X17.  [Log] never finds the logger that [WithLog] stores: [WithLog]
    binds it under [keyLogger] and [Log] reads [keyFields], so [Log]
    answers after [WithLog] what it answered before, the default logger
    when nothing is bound under [keyFields]. *)
Theorem Log_ignores_WithLog (keyLogger : ctxkey) (isLogger : nat → bool)
    c logger :
  keyLogger ≠ keyFields →
  ∃ c', WithLog keyLogger (Some c) logger = Ok (Some c') ∧
        Value c' keyLogger = VAny (AnyOther logger) ∧
        Log isLogger (Some c') = Log isLogger (Some c) ∧
        (Value c keyFields = VNil →
         Log isLogger (Some c') = Ok slog_Default).
Proof.
  intros Hk. eexists. split; [done|]. simpl.
  rewrite decide_True by done. rewrite decide_False by done.
  split; [done|]. split; [done|]. by intros ->.
Qed.

Lemma Log_ignores_WithLog_witness :
  otherKey 0 ≠ keyFields ∧
  ∃ c', WithLog (otherKey 0) (Some Background) 3 = Ok (Some c') ∧
        Log (λ _, true) (Some c') = Ok slog_Default.
Proof.
  split; [done|].
  destruct (Log_ignores_WithLog (otherKey 0) (λ _, true) Background 3
              ltac:(done)) as (c' & Hw & _ & _ & Hd).
  exists c'. split; [exact Hw | by apply Hd].
Defined.

(** ** [lastDot] *)

Lemma lastDot_loop_spec s n :
  (-1 ≤ lastDot_loop s n < Z.of_nat n)%Z ∧
  (lastDot_loop s n = (-1)%Z ↔ ∀ i, i < n → String.get i s ≠ Some dot) ∧
  (∀ i, lastDot_loop s n = Z.of_nat i →
        String.get i s = Some dot ∧
        ∀ j, i < j < n → String.get j s ≠ Some dot).
Proof.
  induction n as [|n (IHr & IHn & IHi)]; simpl.
  - split; [lia|]. split; [split; [intros _ i; lia | done]|]. lia.
  - case_bool_decide as Hd.
    + split; [lia|]. split.
      * split; [lia|]. intros Hall. destruct (Hall n); [lia | done].
      * intros i Hi. assert (i = n) as -> by lia. split; [done|]. lia.
    + split; [lia|]. split.
      * rewrite IHn. split.
        -- intros Hall i Hi. destruct (decide (i = n)) as [->|]; [done|].
           apply Hall. lia.
        -- intros Hall i Hi. apply Hall. lia.
      * intros i Hi. destruct (IHi i Hi) as [Hget Hlater].
        split; [done|]. intros j Hj.
        destruct (decide (j = n)) as [->|]; [done|]. apply Hlater. lia.
Qed.

Lemma get_beyond s i : String.length s ≤ i → String.get i s = None.
Proof.
  revert i. induction s as [|a s IH]; intros i Hi; [by destruct i|].
  destruct i as [|i]; simpl in *; [lia|]. apply IH. lia.
Qed.

(** X18.  [lastDot] returns [-1] exactly when the string holds no dot, and
    otherwise the index of a dot behind which there is no other; the
    result is always below the length of the string. *)
Theorem lastDot_last s :
  (-1 ≤ lastDot s < Z.of_nat (String.length s))%Z ∧
  (lastDot s = (-1)%Z ↔ ∀ i, String.get i s ≠ Some dot) ∧
  (∀ i, lastDot s = Z.of_nat i →
        String.get i s = Some dot ∧ ∀ j, i < j → String.get j s ≠ Some dot).
Proof.
  unfold lastDot.
  destruct (lastDot_loop_spec s (String.length s)) as (Hr & Hn & Hi).
  split; [done|]. split.
  - rewrite Hn. split; [|by auto]. intros Hall i.
    destruct (decide (i < String.length s)); [by apply Hall|].
    rewrite get_beyond by lia. done.
  - intros i Hl. destruct (Hi i Hl) as [Hget Hlater]. split; [done|].
    intros j Hj. destruct (decide (j < String.length s)).
    + apply Hlater. lia.
    + rewrite get_beyond by lia. done.
Qed.

(** ** Uniqueness of keys *)

Lemma NoDup_keys_filter (P : field → Prop) `{!∀ f, Decision (P f)} fs :
  NoDup (key <$> fs) → NoDup (key <$> filter P fs).
Proof.
  intros Hfs. eapply sublist_NoDup; [exact Hfs|].
  apply fmap_sublist, sublist_filter.
Qed.

Lemma NoDup_keys_replaced fs new :
  NoDup (key <$> fs) →
  (NoDup (key <$> (filter (λ f, key f ∉ key <$> new) fs ++ new))
   ↔ NoDup (key <$> new)).
Proof.
  intros Hfs. rewrite fmap_app, NoDup_app. split; [by intros (_ & _ & ?)|].
  intros Hnew. split; [by apply NoDup_keys_filter|]. split; [|done].
  intros k Hk. apply list_elem_of_fmap in Hk as (f & -> & Hf).
  by apply list_elem_of_filter in Hf as [? _].
Qed.

Section Uniqueness.

Variable growslice : nat → nat → nat.

(** X19.  Keys stay unique under every call but [WithValues]: along a chain
    of [WithUniqueValues] calls whose batches name no key twice,
    [WithoutKeys] and [WithoutAllKeys] calls, a carrier that holds no key
    twice never comes to hold one twice. *)
Theorem unique_keys_invariant (cs : list call) h ctx h' ctx' :
  ctx_ok h ctx →
  NoDup (key <$> carrier h ctx) →
  Forall keeps_unique cs →
  derive growslice cs (h, ctx) = Ok (h', ctx') →
  NoDup (key <$> carrier h' ctx').
Proof.
  intros Hok Hnd Hcs. revert h ctx Hok Hnd.
  induction Hcs as [|cl cs Hcl _ IH]; intros h ctx Hok Hnd Hd; simpl in Hd.
  - by injection Hd as <- <-.
  - destruct (apply_call growslice cl (h, ctx)) as [[h1 ctx1]|] eqn:Hrun;
      [|done].
    destruct (apply_call_spec growslice cl h ctx h1 ctx1 Hrun Hok)
      as (_ & _ & Hok1).
    apply (IH h1 ctx1 Hok1); [|done].
    rewrite (apply_call_carrier growslice cl h ctx h1 ctx1 Hrun Hok).
    destruct cl as [args|args|keys|]; simpl in Hcl.
    + done.
    + by apply NoDup_keys_replaced.
    + by apply NoDup_keys_filter.
    + constructor.
Qed.

(** X20.  [WithUniqueValues] removes earlier fields only: on a carrier that
    holds no key twice the result holds no key twice exactly when the batch
    names none twice, so a key given twice in one call is carried twice. *)
Theorem WithUniqueValues_unique_iff h ctx args :
  ctx_ok h ctx →
  NoDup (key <$> carrier h ctx) →
  let r := WithUniqueValues growslice h ctx args in
  NoDup (key <$> carrier r.1 r.2) ↔ NoDup (key <$> kept_fields args).
Proof.
  intros Hok Hnd r.
  destruct (WithUniqueValues_spec growslice h ctx args r.1 r.2) as
    (_ & _ & _ & -> & _); [apply surjective_pairing | done |].
  by apply NoDup_keys_replaced.
Qed.

End Uniqueness.

Lemma unique_keys_invariant_witness :
  ctx_ok [] None ∧ NoDup (key <$> carrier [] None) ∧
  ∃ h' ctx',
    derive double_cap
      [CallWithUniqueValues [AnyString "a"; AnyInt 1; AnyString "b"; AnyInt 2];
       CallWithUniqueValues [AnyString "a"; AnyInt 3];
       CallWithoutKeys ["b"]] ([], None) = Ok (h', ctx') ∧
    NoDup (key <$> carrier h' ctx').
Proof.
  split; [exact I|]. split; [constructor|]. eexists _, _.
  split; [vm_compute; reflexivity|].
  refine (unique_keys_invariant double_cap
            [CallWithUniqueValues
               [AnyString "a"; AnyInt 1; AnyString "b"; AnyInt 2];
             CallWithUniqueValues [AnyString "a"; AnyInt 3];
             CallWithoutKeys ["b"]] [] None _ _ I ltac:(constructor) _ _).
  - repeat (apply Forall_cons; split); [| |exact I|apply Forall_nil];
      apply (bool_decide_unpack _); vm_compute; reflexivity.
  - vm_compute. reflexivity.
Defined.

Lemma WithUniqueValues_unique_iff_witness :
  ctx_ok [] None ∧ NoDup (key <$> carrier [] None) ∧
  ¬ NoDup (key <$> carrier
             (WithUniqueValues double_cap [] None
                [AnyString "a"; AnyInt 1; AnyString "a"; AnyInt 2]).1
             (WithUniqueValues double_cap [] None
                [AnyString "a"; AnyInt 1; AnyString "a"; AnyInt 2]).2).
Proof.
  split; [exact I|]. split; [constructor|].
  intros Hnd.
  apply (WithUniqueValues_unique_iff double_cap [] None
           [AnyString "a"; AnyInt 1; AnyString "a"; AnyInt 2] I
           ltac:(constructor)) in Hnd.
  vm_compute in Hnd. apply NoDup_cons in Hnd as [Hin _]. apply Hin. left.
Defined.

(** ** Emission by the older handler *)


